(** * Scatter-gather over publish/subscribe: a shallow embedding of
      [bin/scatter-gather.js]

    The file embeds the two exported functions of the module,
    [exports.aggregator] and [exports.response], together with the private
    helper [callbackArguments], and proves properties of them.

    Conventions of the model.
    - The JavaScript run time is single threaded: every callback runs to
      completion.  The aggregator is a state machine whose transitions are
      the callbacks of the source (a call of [aggregator], a timer callback,
      a delivery to [runGatherers], a promise reaction, a call of
      [unsubscribe]).  Its promise reactions are transitions of their own,
      enabled once the promise they hang on has settled, because the caller
      can call [aggregator] and [unsubscribe] in one job, before any reaction
      runs.  The entry point of the responder is called by the hosting run
      time; there a transition is a whole job, the reactions that are ready
      at its end included.
    - [setTimeout (f, d)] is taken at its contract: [f] runs once, not before
      [d] milliseconds have passed on the clock, where node's timers take a
      [d] above [2^31 - 1] as 1.
    - Messages, topic names, function names, request ids and error values are
      strings. *)

From Stdlib Require Import Ascii.
From stdpp Require Import gmap strings list fin_maps.

Open Scope string_scope.

(** ** Promises *)

Abbreviation JsError := string (only parsing).

Inductive promise (V : Type) : Type :=
| Pending
| Fulfilled (v : V)
| Rejected (e : JsError).
Arguments Pending {V}.
Arguments Fulfilled {V} v.
Arguments Rejected {V} e.

Module Defer.

(** Modelled from the spec: the module [./defer], required on line 18, is
    not among the source files.  Section 4.1 of the specification gives its
    contract: [defer()] creates a handle in the pending state. *)
Definition defer {V} : promise V := Pending.

(** Modelled from the spec: [promise.isPending()] of the missing module
    [./defer]; section 4.1: it tells whether the handle is still pending. *)
Definition isPending {V} (p : promise V) : bool :=
  match p with Pending => true | _ => false end.

(** Modelled from the spec: [deferred.resolve] of the missing module
    [./defer]; section 4.1: it fulfils a pending handle and does nothing to
    a handle that has left the pending state (the first transition wins). *)
Definition resolve {V} (v : V) (p : promise V) : promise V :=
  if isPending p then Fulfilled v else p.

(** Modelled from the spec: [deferred.reject] of the missing module
    [./defer]; section 4.1: it rejects a pending handle and does nothing to
    a handle that has left the pending state. *)
Definition reject {V} (e : JsError) (p : promise V) : promise V :=
  if isPending p then Rejected e else p.

End Defer.

(** [p.catch(fnUndefined)], lines 132 and 253-255: a rejection is turned
    into a fulfilment with [undefined] (here [None]). *)
Definition catch_fnUndefined {V} (p : promise V) : promise (option V) :=
  match p with
  | Pending => Pending
  | Fulfilled v => Fulfilled (Some v)
  | Rejected _ => Fulfilled None
  end.

(** [Promise.all(ps)] at the moment it is created: its reactions on the
    members that have already settled run in index order, so the first
    rejected member (if any) decides; with no rejection it is fulfilled
    exactly when every member is. *)
Fixpoint promise_all {V} (ps : list (promise V)) : promise (list V) :=
  match ps with
  | [] => Fulfilled []
  | Rejected e :: _ => Rejected e
  | Fulfilled v :: ps' =>
      match promise_all ps' with
      | Fulfilled vs => Fulfilled (v :: vs)
      | Rejected e => Rejected e
      | Pending => Pending
      end
  | Pending :: ps' =>
      match promise_all ps' with
      | Rejected e => Rejected e
      | _ => Pending
      end
  end.

(** ** The event envelope *)

Record Attributes : Type := {
  ScatherDirection : string;
  ScatherFunctionName : string;
  ScatherResponseArn : string;
  ScatherRequestId : string
}.

(** One decoded record of an inbound event: [record.message] and
    [record.attributes]. *)
Record ScatherRecord : Type := {
  message : string;
  attributes : Attributes
}.

(** What [EventRecord.createPublishEvent(topic, message, attributes)] is
    given. *)
Record PublishEvent : Type := {
  pe_topic : string;
  pe_message : string;
  pe_attributes : Attributes
}.

Module EventRecord.

(** Modelled from the spec: [extractScatherRecords] of the module
    [./event-record], which is not among the source files.  Section 6 of
    the specification: the transport decodes a raw batch into an ordered
    sequence of records and keeps the ones that satisfy the predicate of
    the caller.  An inbound event is represented by the sequence of its
    decoded records. *)
Definition extractScatherRecords
    (event : list ScatherRecord) (callback : ScatherRecord -> bool)
  : list ScatherRecord :=
  List.filter callback event.

(** Modelled from the spec: [createPublishEvent] of the missing module
    [./event-record]; sections 4.2, 4.3 and 6: the event to publish names
    the topic and carries the payload and the attributes. *)
Definition createPublishEvent
    (topic : string) (data : string) (attrs : Attributes) : PublishEvent :=
  {| pe_topic := topic; pe_message := data; pe_attributes := attrs |}.

End EventRecord.

(** ** JavaScript array operations used by the source *)

Fixpoint indexOf_from `{EqDecision A} (l : list A) (x : A) (i : Z) : Z :=
  match l with
  | [] => (-1)%Z
  | y :: l' => if decide (y = x) then i else indexOf_from l' x (i + 1)%Z
  end.

(** [l.indexOf(x)]: the first index of [x], or [-1]. *)
Definition indexOf `{EqDecision A} (l : list A) (x : A) : Z := indexOf_from l x 0%Z.

(** [l.splice(index, 1)] for an index that [indexOf] has found: the element
    at [index] is removed from the array in place. *)
Definition splice1 {A} (l : list A) (index : Z) : list A :=
  delete (Z.to_nat index) l.

(** [l.slice(start, end)]: a fresh array holding the elements from [start]
    up to [end]; negative positions count from the end.  The receiver is
    left as it is. *)
Definition slice {A} (l : list A) (start_ end_ : Z) : list A :=
  let len := Z.of_nat (length l) in
  let k := if (start_ <? 0)%Z then Z.max (len + start_) 0 else Z.min start_ len in
  let final := if (end_ <? 0)%Z then Z.max (len + end_) 0 else Z.min end_ len in
  take (Z.to_nat (final - k)) (drop (Z.to_nat k) l).

(** ** The aggregator, lines 34-145 *)

Module Aggregator.

(** The configuration after [schemas.request.normalize]. *)
Record Config : Type := {
  topicArn : string;
  cfgResponseArn : option string;
  functionName : string;
  expects : list string;
  minWait : nat;
  maxWait : nat
}.

(** Line 36: [config.responseArn || config.topicArn]. *)
Definition responseArn (config : Config) : string :=
  match cfgResponseArn config with
  | Some a => if String.eqb a "" then topicArn config else a
  | None => topicArn config
  end.

(** The largest delay node's timers take as it is, [2^31 - 1] ms. *)
Definition maxDelay : Z := 2147483647.

(** What node's [setTimeout] makes of the delay it is given: a delay above
    [maxDelay] is set to 1 ms.  (A delay of 0 is kept: the callback is a
    later job in any case.) *)
Definition timeoutDelay (delay : nat) : nat :=
  if (maxDelay <? Z.of_nat delay)%Z then 1 else delay.
Arguments timeoutDelay : simpl never.

(** A timer armed by [setTimeout]: the clock value at the call, the delay
    passed, and whether its callback has run. *)
Record Timer : Type := { armedAt : nat; delay : nat; fired : bool }.

Definition setTimeout (now delay : nat) : Timer :=
  {| armedAt := now; delay := delay; fired := false |}.

(** The clock value the caller asked for. *)
Definition due (t : Timer) : nat := armedAt t + delay t.

(** The clock value from which the callback may run. *)
Definition runsFrom (t : Timer) : nat := armedAt t + timeoutDelay (delay t).

Definition fire (t : Timer) : Timer :=
  {| armedAt := armedAt t; delay := delay t; fired := true |}.

(** The variables one call of [aggregator] closes over (lines 48-58).
    [missing] is the copy of [config.expects] made on line 56, an array
    only this call holds.  [result] is the address of the object allocated
    on line 57; the
    promise of [deferred] is resolved with that address, so whoever
    receives the value reads the same object.  [invokedAt] is the clock
    value at the call; the source does not store it, the properties about
    waiting times refer to it. *)
Record Closure : Type := {
  attrs : Attributes;
  deferred : promise nat;
  missing : list string;
  result : nat;
  minTimeoutReached : bool;
  minTimer : Timer;
  maxTimer : Timer;
  finallyRan : bool;
  invokedAt : nat
}.

(** Lines 76-79: [{ gatherer: gatherer, promise: deferred.promise }];
    both fields name the call they belong to. *)
Record Active : Type := { gatherer_of : nat; promise_of : nat }.

#[export] Instance Active_eq_dec : EqDecision Active.
Proof. solve_decision. Defined.

(** One call of [unsubscribe]: the promises it collected on line 132 and
    whether the reaction of lines 134-137 has run. *)
Record Unsubscription : Type := { waitsFor : list nat; reacted : bool }.

Record State : Type := {
  now : nat;
  subscribed : bool;
  gatherers : list Active;
  closures : list Closure;
  heap : list (gmap string string);
  listening : bool;
  published : list PublishEvent;
  unsubscriptions : list Unsubscription
}.

(** Lines 37-40 and 141: the state after [exports.aggregator(config)]. *)
Definition init : State :=
  {| now := 0; subscribed := true; gatherers := []; closures := [];
     heap := []; listening := true; published := []; unsubscriptions := [] |}.

Definition readObject (s : State) (loc : nat) : gmap string string :=
  default ∅ (heap s !! loc).

Definition promiseState (s : State) (k : nat) : promise nat :=
  match closures s !! k with
  | Some c => deferred c
  | None => Pending
  end.

Definition with_closure (k : nat) (c : Closure) (s : State) : State :=
  {| now := now s; subscribed := subscribed s; gatherers := gatherers s;
     closures := <[k := c]> (closures s); heap := heap s;
     listening := listening s; published := published s;
     unsubscriptions := unsubscriptions s |}.

(** What a call of [aggregator] returns. *)
Inductive Returned : Type :=
| RejectedPromise (e : JsError)
| PromiseOf (k : nat)
| Undefined.

(** Modelled from the spec: [defer.paradigm] belongs to the missing module
    [./defer].  Section 4.1: with a continuation the call returns nothing
    and the continuation is told the outcome; without one the promise is
    returned. *)
Definition paradigm (k : nat) (callback : bool) : Returned :=
  if callback then Undefined else PromiseOf k.

Definition unsubscribedError : JsError :=
  "Request aggregator has been unsubscribed. It will no longer gather requests.".

(** Lines 43-122, the function [aggregator(data, callback)].  [uuid] is
    the value [uuid()] returns on line 52. *)
Definition aggregator (config : Config) (data : string) (callback : bool)
    (uuid : string) (s : State) : State * Returned :=
  if negb (subscribed s) then (s, RejectedPromise unsubscribedError)
  else
    let attributes :=
      {| ScatherDirection := "request";
         ScatherFunctionName := functionName config;
         ScatherResponseArn := responseArn config;
         ScatherRequestId := uuid |} in
    let event := EventRecord.createPublishEvent (topicArn config) data attributes in
    let k := length (closures s) in
    let loc := length (heap s) in
    let c :=
      {| attrs := attributes;
         deferred := Defer.defer;
         missing := expects config;
         result := loc;
         minTimeoutReached := false;
         minTimer := setTimeout (now s) (minWait config);
         maxTimer := setTimeout (now s) (maxWait config);
         finallyRan := false;
         invokedAt := now s |} in
    ({| now := now s;
        subscribed := subscribed s;
        gatherers := gatherers s ++ [ {| gatherer_of := k; promise_of := k |} ];
        closures := closures s ++ [c];
        heap := heap s ++ [∅];
        listening := listening s;
        published := published s ++ [event];
        unsubscriptions := unsubscriptions s |},
     paradigm k callback).

(** Lines 61-64, the callback of the first timer. *)
Definition minTimeoutCallback (c : Closure) : Closure :=
  let d :=
    if Nat.eqb (length (missing c)) 0 && Defer.isPending (deferred c)
    then Defer.resolve (result c) (deferred c)
    else deferred c in
  {| attrs := attrs c; deferred := d; missing := missing c;
     result := result c; minTimeoutReached := true;
     minTimer := fire (minTimer c); maxTimer := maxTimer c;
     finallyRan := finallyRan c; invokedAt := invokedAt c |}.

(** Lines 67-69, the callback of the second timer. *)
Definition maxTimeoutCallback (c : Closure) : Closure :=
  let d :=
    if Defer.isPending (deferred c)
    then Defer.resolve (result c) (deferred c)
    else deferred c in
  {| attrs := attrs c; deferred := d; missing := missing c;
     result := result c; minTimeoutReached := minTimeoutReached c;
     minTimer := minTimer c; maxTimer := fire (maxTimer c);
     finallyRan := finallyRan c; invokedAt := invokedAt c |}.

(** Lines 83-86, the reaction registered with [finally].  The array
    returned by [slice] is dropped; [gatherers] is not assigned. *)
Definition finallyCallback (k : nat) (s : State) : State :=
  let active := {| gatherer_of := k; promise_of := k |} in
  let index := indexOf (gatherers s) active in
  let _ := slice (gatherers s) index 1%Z in
  s.

(** Lines 95-98, the predicate handed to [extractScatherRecords]. *)
Definition isResponseTo (requestId : string) (data : ScatherRecord) : bool :=
  String.eqb (ScatherDirection (attributes data)) "response"
  && String.eqb (ScatherRequestId (attributes data)) requestId.

(** [object[key] = value] on an object created by [{}] (line 57), seen
    through its own properties: the property [key] is written, except for
    the key [__proto__].  That key names the accessor inherited from
    [Object.prototype], whose setter is called instead; it creates no own
    property. *)
Definition assign (key value : string) (object : gmap string string)
  : gmap string string :=
  if String.eqb key "__proto__" then object else <[key := value]> object.

(** Lines 101-112, the body of [records.forEach]: the pair is the array
    [missing] and the contents of the object [result]. *)
Definition storeRecord (acc : list string * gmap string string)
    (record : ScatherRecord) : list string * gmap string string :=
  let senderName := ScatherFunctionName (attributes record) in
  let index := indexOf (fst acc) senderName in
  let missing' :=
    if (index =? -1)%Z then fst acc else splice1 (fst acc) index in
  (missing', assign senderName (message record) (snd acc)).

(** Lines 89-118, the function [gatherer(event)] of call [k]. *)
Definition gatherer (k : nat) (event : list ScatherRecord) (s : State) : State :=
  match closures s !! k with
  | None => s
  | Some c =>
      if negb (Defer.isPending (deferred c)) then s
      else
        let records :=
          EventRecord.extractScatherRecords event
            (isResponseTo (ScatherRequestId (attrs c))) in
        let acc := foldl storeRecord (missing c, readObject s (result c)) records in
        let d :=
          if Nat.eqb (length (fst acc)) 0 && minTimeoutReached c
          then Defer.resolve (result c) (deferred c)
          else deferred c in
        {| now := now s; subscribed := subscribed s; gatherers := gatherers s;
           closures :=
             <[k := {| attrs := attrs c; deferred := d; missing := fst acc;
                       result := result c;
                       minTimeoutReached := minTimeoutReached c;
                       minTimer := minTimer c; maxTimer := maxTimer c;
                       finallyRan := finallyRan c;
                       invokedAt := invokedAt c |}]> (closures s);
           heap := <[result c := snd acc]> (heap s);
           listening := listening s; published := published s;
           unsubscriptions := unsubscriptions s |}
  end.

(** Lines 125-127. *)
Definition runGatherers (event : list ScatherRecord) (s : State) : State :=
  foldl (fun s item => gatherer (gatherer_of item) event s) s (gatherers s).

(** Lines 130-133: the synchronous part of [unsubscribe()]. *)
Definition unsubscribe (s : State) : State :=
  {| now := now s; subscribed := subscribed s; gatherers := gatherers s;
     closures := closures s; heap := heap s; listening := listening s;
     published := published s;
     unsubscriptions :=
       unsubscriptions s
         ++ [ {| waitsFor := map promise_of (gatherers s); reacted := false |} ] |}.

(** The promise [Promise.all(promises)] of line 133 for the call [u], read
    off the state of its members; they are never rejected, so the order in
    which they settle does not matter. *)
Definition unsubscribeAll (s : State) (u : Unsubscription)
  : promise (list (option nat)) :=
  promise_all (map (fun k => catch_fnUndefined (promiseState s k)) (waitsFor u)).

(** Lines 134-137, the reaction of [then]: [Subscriptions.unsubscribe]
    takes [runGatherers] off the reply topic. *)
Definition unsubscribeCallback (n : nat) (u : Unsubscription) (s : State) : State :=
  {| now := now s; subscribed := false; gatherers := gatherers s;
     closures := closures s; heap := heap s; listening := false;
     published := published s;
     unsubscriptions :=
       <[n := {| waitsFor := waitsFor u; reacted := true |}]> (unsubscriptions s) |}.

(** The promise that [unsubscribe()] returns: [then] passes a rejection
    of [Promise.all] on and is fulfilled when its reaction has run. *)
Definition unsubscribeFuture (s : State) (u : Unsubscription) : promise unit :=
  match unsubscribeAll s u with
  | Rejected e => Rejected e
  | Fulfilled _ => if reacted u then Fulfilled tt else Pending
  | Pending => Pending
  end.

(** The callbacks the run time can start. *)
Inductive Event : Type :=
| Invoke (data : string) (callback : bool) (uuid : string)
| Elapse (dt : nat)
| MinTimeout (k : nat)
| MaxTimeout (k : nat)
| Deliver (event : list ScatherRecord)
| FinallyReaction (k : nat)
| Unsubscribe
| UnsubscribeReaction (n : nat).

Definition elapse (dt : nat) (s : State) : State :=
  {| now := now s + dt; subscribed := subscribed s; gatherers := gatherers s;
     closures := closures s; heap := heap s; listening := listening s;
     published := published s; unsubscriptions := unsubscriptions s |}.

Definition markFinally (c : Closure) : Closure :=
  {| attrs := attrs c; deferred := deferred c; missing := missing c;
     result := result c; minTimeoutReached := minTimeoutReached c;
     minTimer := minTimer c; maxTimer := maxTimer c;
     finallyRan := true; invokedAt := invokedAt c |}.

(** One callback, run to completion; [None] when the run time cannot start
    it in this state (a timer that cannot run yet or has fired, a reaction
    whose promise has not settled or that has run, an unknown index). *)
Definition step (config : Config) (s : State) (e : Event) : option State :=
  match e with
  | Invoke data callback uuid => Some (fst (aggregator config data callback uuid s))
  | Elapse dt => Some (elapse dt s)
  | MinTimeout k =>
      c ← closures s !! k;
      if negb (fired (minTimer c)) && Nat.leb (runsFrom (minTimer c)) (now s)
      then Some (with_closure k (minTimeoutCallback c) s)
      else None
  | MaxTimeout k =>
      c ← closures s !! k;
      if negb (fired (maxTimer c)) && Nat.leb (runsFrom (maxTimer c)) (now s)
      then Some (with_closure k (maxTimeoutCallback c) s)
      else None
  | Deliver event =>
      Some (if listening s then runGatherers event s else s)
  | FinallyReaction k =>
      c ← closures s !! k;
      if negb (Defer.isPending (deferred c)) && negb (finallyRan c)
      then Some (finallyCallback k (with_closure k (markFinally c) s))
      else None
  | Unsubscribe => Some (unsubscribe s)
  | UnsubscribeReaction n =>
      u ← unsubscriptions s !! n;
      match unsubscribeAll s u with
      | Fulfilled _ =>
          if reacted u then None else Some (unsubscribeCallback n u s)
      | _ => None
      end
  end.

Fixpoint run (config : Config) (s : State) (es : list Event) : option State :=
  match es with
  | [] => Some s
  | e :: es' => s' ← step config s e; run config s' es'
  end.

End Aggregator.

(** ** [callbackArguments], lines 229-240

    The function reads the source text of its argument
    ([callback.toString()]) with two regular expressions and [split].  The
    matchers below follow the backtracking order of the expressions.  A
    character of a text stands for a code unit below 256; [\s] matches the
    white space among them: tab, line feed, vertical tab, form feed,
    carriage return, space and the no-break space. *)

Module CallbackArguments.

Definition isWhite (c : Ascii.ascii) : bool :=
  let n := Ascii.nat_of_ascii c in
  Nat.eqb n 9 || Nat.eqb n 10 || Nat.eqb n 11 || Nat.eqb n 12
  || Nat.eqb n 13 || Nat.eqb n 32 || Nat.eqb n 160.

Fixpoint stripPrefix (p s : string) : option string :=
  match p, s with
  | EmptyString, _ => Some s
  | String a p', String b s' => if Ascii.eqb a b then stripPrefix p' s' else None
  | String _ _, EmptyString => None
  end.

(** The ways [\s?] can match at the start of [s], greedy one first: what
    is left of [s] for each. *)
Definition optWhite (s : string) : list string :=
  match s with
  | String c r => if isWhite c then [r; s] else [s]
  | EmptyString => [s]
  end.

(** The ways [(?:p\s?)?] can match at the start of [s]. *)
Definition optWord (p s : string) : list string :=
  match stripPrefix p s with
  | Some r => optWhite r ++ [s]
  | None => [s]
  end.

Definition startsWithBrace (s : string) : bool :=
  match s with
  | String c _ => Ascii.eqb c "{"%char
  | EmptyString => false
  end.

(** Whether [\s?(?:=>\s?)?\{] matches at the start of [s]. *)
Definition beforeBrace (s : string) : bool :=
  existsb (fun s1 => existsb startsWithBrace (optWord "=>" s1)) (optWhite s).

(** [([\s\S]+?)] followed by the rest of the expression: the shortest
    non-empty prefix of [s] after which [beforeBrace] holds; [seen] is
    the part of the group already consumed. *)
Fixpoint lazyGroup (seen s : string) : option string :=
  match s with
  | EmptyString => None
  | String c r =>
      let group := seen ++ String c EmptyString in
      if beforeBrace r then Some group else lazyGroup group r
  end.

Fixpoint firstMatch (alts : list string) : option string :=
  match alts with
  | [] => None
  | s :: alts' =>
      match lazyGroup "" s with
      | Some g => Some g
      | None => firstMatch alts'
      end
  end.

(** Lines 232-233: [match[1]] of
    [/^(?:function\s?)?([\s\S]+?)\s?(?:=>\s?)?\{/.exec(text)], or [None]
    when [exec] returns [null]. *)
Definition rxExec (text : string) : option string :=
  firstMatch (optWord "function" text).

Fixpoint lastIs (c : Ascii.ascii) (s : string) : bool :=
  match s with
  | EmptyString => false
  | String d EmptyString => Ascii.eqb c d
  | String _ r => lastIs c r
  end.

(** Line 236: [/^\([\s\S]*?\)$/.test(args)]. *)
Definition parenthesised (args : string) : bool :=
  match args with
  | String c r => Ascii.eqb c "("%char && lastIs ")"%char r
  | EmptyString => false
  end.

(** Line 237: [args.split(/,\s?/)]; [cur] is the piece being read. *)
Fixpoint split (cur s : string) : list string :=
  match s with
  | EmptyString => [cur]
  | String c r =>
      if Ascii.eqb c ","%char
      then match r with
           | String d r' =>
               if isWhite d then cur :: split "" r' else cur :: split "" r
           | EmptyString => [cur; ""]
           end
      else split (cur ++ String c EmptyString) r
  end.

(** Lines 229-240 applied to a function whose source text is [text];
    [None] stands for the [TypeError] that [match[1]] raises when the
    first expression does not match. *)
Definition callbackArguments (text : string) : option (list string) :=
  match rxExec text with
  | None => None
  | Some args =>
      let args :=
        if parenthesised args
        then String.substring 1 (String.length args - 2) args
        else args in
      let args := split "" args in
      Some (match args with
            | [a] => if String.eqb a "" then [] else args
            | _ => args
            end)
  end.

(** A function as it is declared: name, the text of each declared
    parameter, body. *)
Record FunctionDecl : Type := {
  fn_name : string;
  fn_params : list string;
  fn_body : string
}.

(** The source text [Function.prototype.toString] gives back for a
    declaration written on one line. *)
Definition toString (f : FunctionDecl) : string :=
  "function " ++ fn_name f ++ "(" ++ String.concat ", " (fn_params f)
    ++ ") {" ++ fn_body f ++ "}".

(** Texts without an opening brace or an equals sign: the first regular
    expression reads over them. *)
Definition quietChar (c : Ascii.ascii) : bool :=
  negb (Ascii.eqb c "{"%char) && negb (Ascii.eqb c "="%char).

Fixpoint quiet (s : string) : bool :=
  match s with
  | EmptyString => true
  | String c r => quietChar c && quiet r
  end.

Fixpoint commas (s : string) : nat :=
  match s with
  | EmptyString => 0
  | String c r => (if Ascii.eqb c ","%char then 1 else 0) + commas r
  end.

Definition plain (s : string) : Prop := quiet s = true /\ commas s = 0.

(** A declaration whose name and parameters are plain texts, as
    identifiers are: no default values, no comments, no destructuring. *)
Definition plainDecl (f : FunctionDecl) : Prop :=
  plain (fn_name f) /\ Forall plain (fn_params f).

End CallbackArguments.

(** ** The responder, lines 152-227 *)

Module Responder.

(** How a call of the handler ends. *)
Inductive Completion : Type :=
| Return (v : string)
| Throw (e : JsError).

(** [context] as the hosting run time passes it; [ctxFunctionName] is
    [None] when the property is absent or not a string. *)
Record Context : Type := { ctxFunctionName : option string }.

(** Lines 174-175: a copy of [context] with [scather] set to the
    attributes of the record. *)
Record InnerContext : Type := {
  innerFunctionName : string;
  scather : Attributes
}.

(** A user supplied handler: its source text, what a call without a third
    argument does, and what a call with the continuation of lines 180-183
    does, namely the calls [(err, data)] it makes to the continuation
    before it completes, in order, and how it completes.  [err] is [None]
    for a value that is not truthy.  Calls the handler makes to the
    continuation afterwards are transitions of the machine below.  Results
    are plain values, not promises. *)
Record Handler : Type := {
  source : string;
  call2 : string -> InnerContext -> Completion;
  call3 : string -> InnerContext -> list (option JsError * string) * Completion
}.

(** What [response] evaluates to: it raises, or it returns the entry point,
    which closes over [handler] and [handlerTakesCallback]. *)
Inductive Wrapped : Type :=
| WrapThrew (e : JsError)
| EntryPoint (handler : Handler) (handlerTakesCallback : bool).

(** Lines 152-157; [None] is an argument that is not a function. *)
Definition response (handler : option Handler) : Wrapped :=
  match handler with
  | None =>
      WrapThrew "Scather.response must be called with a function as its first parameter."
  | Some h =>
      match CallbackArguments.callbackArguments (source h) with
      | None => WrapThrew "TypeError"
      | Some args => EntryPoint h (Nat.leb 3 (length args))
      end
  end.

(** Lines 180-183, the continuation handed to the handler. *)
Definition innerCallback (deferred : promise string)
    (call : option JsError * string) : promise string :=
  match fst call with
  | Some err => Defer.reject err deferred
  | None => Defer.resolve (snd call) deferred
  end.

(** Lines 168-196, the part of the body of [records.forEach] that runs the
    handler: the state of [deferred.promise] when the body is left. *)
Definition runHandler (handler : Handler) (handlerTakesCallback : bool)
    (functionName : string) (record : ScatherRecord) : promise string :=
  let deferred : promise string := Defer.defer in
  let innerContext :=
    {| innerFunctionName := functionName; scather := attributes record |} in
  if handlerTakesCallback then
    let '(calls, completion) := call3 handler (message record) innerContext in
    let deferred := foldl innerCallback deferred calls in
    match completion with
    | Return _ => deferred
    | Throw err => Defer.reject err deferred
    end
  else
    match call2 handler (message record) innerContext with
    | Return result => Defer.resolve result deferred
    | Throw err => Defer.reject err deferred
    end.

(** Lines 200-207, the reaction to a fulfilled [deferred.promise]: the
    event it fires. *)
Definition publishReaction (functionName : string) (record : ScatherRecord)
    (message : string) : PublishEvent :=
  EventRecord.createPublishEvent
    (ScatherResponseArn (attributes record)) message
    {| ScatherDirection := "response";
       ScatherFunctionName := functionName;
       ScatherResponseArn := ScatherResponseArn (attributes record);
       ScatherRequestId := ScatherRequestId (attributes record) |}.

(** Line 222, the two reactions on [Promise.all(promises)]: the arguments
    [callback] is called with. *)
Definition outerReaction (all : promise (list string))
  : list (option JsError * option (list string)) :=
  match all with
  | Pending => []
  | Fulfilled data => [(None, Some data)]
  | Rejected err => [(Some err, None)]
  end.

(** The state one call of the entry point leaves behind.  [published]
    lists the events fired with [EventInterface.PUBLISH], each with the
    index of the record whose reaction fired it; [callbackCalls] lists the
    calls made to the continuation the caller passed. *)
Record State : Type := {
  functionName : string;
  records : list ScatherRecord;
  promises : list (promise string);
  all : promise (list string);
  published : list (nat * PublishEvent);
  callbackCalls : list (option JsError * option (list string))
}.

(** The reactions of lines 199-210 that run at the end of the call: one
    for every promise that is fulfilled, in the order of the records. *)
Fixpoint publishFulfilled (functionName : string) (i : nat)
    (rps : list (ScatherRecord * promise string)) : list (nat * PublishEvent) :=
  match rps with
  | [] => []
  | (r, Fulfilled v) :: rest =>
      (i, publishReaction functionName r v) :: publishFulfilled functionName (S i) rest
  | _ :: rest => publishFulfilled functionName (S i) rest
  end.

Inductive Returned : Type :=
| BatchPromise
| Undefined.

Inductive Outcome : Type :=
| Threw (e : JsError)
| Completed (ret : Returned) (s : State).

Definition isRequest (r : ScatherRecord) : bool :=
  String.eqb (ScatherDirection (attributes r)) "request".

(** Lines 157-226, one call [(event, context, callback)] of the entry
    point, up to the end of the job that made the call: the body, then the
    promise reactions that are ready.  [context] is [None] for a value
    that is not an object; [callback] tells whether the caller passed a
    function. *)
Definition entry (handler : Handler) (handlerTakesCallback : bool)
    (event : list ScatherRecord) (context : option Context) (callback : bool)
  : Outcome :=
  match context with
  | None => Threw "Invalid context. Expected an object."
  | Some ctx =>
      match ctxFunctionName ctx with
      | None => Threw "Invalid context functionName. Value must be a non-empty string."
      | Some name =>
          if String.eqb name ""
          then Threw "Invalid context functionName. Value must be a non-empty string."
          else
            let records := EventRecord.extractScatherRecords event isRequest in
            let promises := map (runHandler handler handlerTakesCallback name) records in
            let promise := promise_all promises in
            Completed
              (if handlerTakesCallback then Undefined else BatchPromise)
              {| functionName := name;
                 records := records;
                 promises := promises;
                 all := promise;
                 published := publishFulfilled name 0 (zip records promises);
                 callbackCalls :=
                   if handlerTakesCallback && callback
                   then outerReaction promise else [] |}
      end
  end.

(** [Promise.all] after the member [p'] of [promises'] has left the
    pending state. *)
Definition allOnSettle (all : promise (list string))
    (promises' : list (promise string)) (p' : promise string)
  : promise (list string) :=
  if Defer.isPending all then
    match p' with
    | Rejected e => Rejected e
    | Fulfilled _ =>
        match promise_all promises' with
        | Fulfilled vs => Fulfilled vs
        | _ => Pending
        end
    | Pending => Pending
    end
  else all.

(** A later job in which the handler started for record [i] calls the
    continuation of lines 180-183 with [call], followed by the reactions
    that have become ready.  Such a job exists only when the handler was
    given a continuation. *)
Definition lateCallback (handlerTakesCallback callback : bool) (i : nat)
    (call : option JsError * string) (s : State) : option State :=
  if negb handlerTakesCallback then None
  else
    p ← promises s !! i;
    r ← records s !! i;
    let p' := innerCallback p call in
    let promises' := <[i := p']> (promises s) in
    let settles := Defer.isPending p && negb (Defer.isPending p') in
    let all' := if settles then allOnSettle (all s) promises' p' else all s in
    Some
      {| functionName := functionName s;
         records := records s;
         promises := promises';
         all := all';
         published :=
           published s ++
             (if settles
              then match p' with
                   | Fulfilled v => [(i, publishReaction (functionName s) r v)]
                   | _ => []
                   end
              else []);
         callbackCalls :=
           callbackCalls s ++
             (if callback && Defer.isPending (all s) then outerReaction all' else []) |}.

Fixpoint run (handlerTakesCallback callback : bool) (s : State)
    (calls : list (nat * (option JsError * string))) : option State :=
  match calls with
  | [] => Some s
  | (i, call) :: calls' =>
      s' ← lateCallback handlerTakesCallback callback i call s;
      run handlerTakesCallback callback s' calls'
  end.

End Responder.

(** ** Predicates used in the statements about the aggregator *)

Module AggregatorSpec.
Import Aggregator.

(** The entries [gatherers] holds after [n] accepted calls. *)
Definition allActive (n : nat) : list Active :=
  map (fun k => {| gatherer_of := k; promise_of := k |}) (seq 0 n).

(** Shape of the store: call [k] owns object [k], and every accepted call
    has its entry in [gatherers]. *)
Record wf (s : State) : Prop := {
  wf_heap : length (heap s) = length (closures s);
  wf_result : forall k c, closures s !! k = Some c -> result c = k;
  wf_gatherers : gatherers s = allActive (length (closures s))
}.

(** What holds of the variables of one call at clock value [t]. *)
Record closureOk (config : Config) (t : nat) (c : Closure) : Prop := {
  ok_minTimer :
    armedAt (minTimer c) = invokedAt c /\ delay (minTimer c) = minWait config;
  ok_maxTimer :
    armedAt (maxTimer c) = invokedAt c /\ delay (maxTimer c) = maxWait config;
  ok_minReached :
    minTimeoutReached c = true ->
    invokedAt c + timeoutDelay (minWait config) <= t;
  ok_maxFired :
    fired (maxTimer c) = true ->
    invokedAt c + timeoutDelay (maxWait config) <= t /\
    Defer.isPending (deferred c) = false;
  ok_settled :
    Defer.isPending (deferred c) = false ->
    invokedAt c
      + Nat.min (timeoutDelay (minWait config)) (timeoutDelay (maxWait config))
      <= t;
  ok_value :
    deferred c = Pending \/ deferred c = Fulfilled (result c)
}.

Definition settled (s : State) (k : nat) : Prop :=
  Defer.isPending (promiseState s k) = false.

Record unsubscriptionOk (s : State) (u : Unsubscription) : Prop := {
  ok_waitsFor : waitsFor u = seq 0 (length (waitsFor u));
  ok_known : length (waitsFor u) <= length (closures s);
  ok_reacted :
    reacted u = true -> forall k, k < length (waitsFor u) -> settled s k
}.

Record invariant (config : Config) (s : State) : Prop := {
  inv_wf : wf s;
  inv_closures :
    forall k c, closures s !! k = Some c -> closureOk config (now s) c;
  inv_unsubscriptions :
    forall n u, unsubscriptions s !! n = Some u -> unsubscriptionOk s u;
  inv_torn_down :
    (exists n u, unsubscriptions s !! n = Some u /\ reacted u = true) <->
    subscribed s = false;
  inv_listening : listening s = subscribed s
}.

Definition closureEvolves (c c' : Closure) : Prop :=
  attrs c' = attrs c /\ result c' = result c /\ invokedAt c' = invokedAt c /\
  (Defer.isPending (deferred c) = false ->
   deferred c' = deferred c /\ missing c' = missing c).

(** [s'] is a later state than [s]: nothing is forgotten and what has
    settled stays as it is. *)
Record evolves (s s' : State) : Prop := {
  ev_now : now s <= now s';
  ev_closures :
    forall k c, closures s !! k = Some c ->
      exists c', closures s' !! k = Some c' /\ closureEvolves c c' /\
        (Defer.isPending (deferred c) = false -> heap s' !! k = heap s !! k);
  ev_unsubscriptions :
    forall n u, unsubscriptions s !! n = Some u ->
      exists u', unsubscriptions s' !! n = Some u' /\
        waitsFor u' = waitsFor u /\ (reacted u = true -> reacted u' = true)
}.

(** The fields [gatherer] leaves alone. *)
Definition sameFrame (s s' : State) : Prop :=
  now s' = now s /\ subscribed s' = subscribed s /\
  gatherers s' = gatherers s /\ listening s' = listening s /\
  published s' = published s /\ unsubscriptions s' = unsubscriptions s /\
  length (closures s') = length (closures s) /\
  length (heap s') = length (heap s).

(** Every record the registry has handed to [runGatherers] in a run. *)
Fixpoint delivered (es : list Event) : list ScatherRecord :=
  match es with
  | [] => []
  | Deliver event :: es' => event ++ delivered es'
  | _ :: es' => delivered es'
  end.

Definition eventRecords (e : Event) : list ScatherRecord :=
  match e with Deliver event => event | _ => [] end.

(** Every key of an object in [s'] was a key in [s] or is the sender of a
    record of [event] that answers the request owning the object. *)
Definition keysVia (event : list ScatherRecord) (s s' : State) : Prop :=
  forall k c' key,
    closures s' !! k = Some c' ->
    key ∈ dom (readObject s' k) ->
    (key ∈ dom (readObject s k) /\ k < length (closures s)) \/
    (exists r, r ∈ event /\
       isResponseTo (ScatherRequestId (attrs c')) r = true /\
       ScatherFunctionName (attributes r) = key).

End AggregatorSpec.

(** ** Concrete runs of the aggregator *)

Module AggregatorRuns.
Import Aggregator.

(** Scenario 1 and 2 of the specification: two expected responders, a
    minimum wait of 50 and a maximum wait of 500. *)
Definition config : Config :=
  {| topicArn := "requests"; cfgResponseArn := Some "replies";
     functionName := "aggregator"; expects := ["A"; "B"];
     minWait := 50; maxWait := 500 |}.

Definition reply (sender requestId data : string) : ScatherRecord :=
  {| message := data;
     attributes :=
       {| ScatherDirection := "response"; ScatherFunctionName := sender;
          ScatherResponseArn := "replies"; ScatherRequestId := requestId |} |}.

Definition stateAfter (es : list Event) : State :=
  default init (run config init es).

Definition blank : Closure :=
  {| attrs := {| ScatherDirection := ""; ScatherFunctionName := "";
                 ScatherResponseArn := ""; ScatherRequestId := "" |};
     deferred := Pending; missing := []; result := 0;
     minTimeoutReached := false;
     minTimer := setTimeout 0 0; maxTimer := setTimeout 0 0;
     finallyRan := false; invokedAt := 0 |}.

(** The variables of call [k] after the run [es]. *)
Definition closureAfter (es : list Event) (k : nat) : Closure :=
  default blank (closures (stateAfter es) !! k).

(** A reply from a responder that is not expected. *)
Definition unexpectedReply : list Event :=
  [Invoke "ping" false "id-1"; Deliver [reply "X" "id-1" "pong"]].

(** Both expected replies arrive before the minimum wait is over. *)
Definition earlyReplies : list Event :=
  [Invoke "ping" false "id-1";
   Elapse 30;
   Deliver [reply "A" "id-1" "a"; reply "B" "id-1" "b"]].

Definition resolvedAtMinWait : list Event :=
  (earlyReplies ++ [Elapse 20; MinTimeout 0])%list.

(** Only [A] replies; the clock reaches the maximum wait. *)
Definition oneReplyThenMaxWait : list Event :=
  [Invoke "ping" false "id-1";
   Deliver [reply "A" "id-1" "a"];
   Elapse 50; MinTimeout 0;
   Elapse 450].

Definition timedOut : list Event :=
  (oneReplyThenMaxWait ++ [MaxTimeout 0])%list.

Definition lateReplies : list Event :=
  [Deliver [reply "B" "id-1" "late"; reply "A" "id-1" "again"];
   FinallyReaction 0;
   Deliver [reply "C" "id-1" "c"]].

(** [unsubscribe()] is called while a request is outstanding, and
    [aggregator] is called again before the request has settled. *)
Definition unsubscribeWhileOutstanding : list Event :=
  [Invoke "ping" false "id-1"; Unsubscribe].

Definition oneRequest : list Event := [Invoke "ping" false "id-1"].

(** The request settles at the maximum wait and the reaction of
    [unsubscribe] runs. *)
Definition drained : list Event :=
  [Elapse 500; MaxTimeout 0; UnsubscribeReaction 0].

End AggregatorRuns.

(** ** Predicates used in the statements about the responder *)

Module ResponderSpec.
Import Responder.

Definition innerContextOf (name : string) (r : ScatherRecord) : InnerContext :=
  {| innerFunctionName := name; scather := attributes r |}.

(** The handling of record [r] fails with [e]: the handler raises [e]
    (before any call of the continuation, when it has one), or the first
    thing it tells the continuation is the error [e]. *)
Definition fails (handler : Handler) (handlerTakesCallback : bool)
    (name : string) (r : ScatherRecord) (e : JsError) : Prop :=
  if handlerTakesCallback then
    match call3 handler (message r) (innerContextOf name r) with
    | ([], Throw e') => e' = e
    | ((Some e', _) :: _, _) => e' = e
    | _ => False
    end
  else call2 handler (message r) (innerContextOf name r) = Throw e.


(** The events fired for record [i]. *)
Definition publishedFor (i : nat) (s : State) : list (nat * PublishEvent) :=
  List.filter (fun x => Nat.eqb (fst x) i) (published s).

Definition expectedFor (s : State) (i : nat) : list (nat * PublishEvent) :=
  match promises s !! i, records s !! i with
  | Some (Fulfilled v), Some r => [(i, publishReaction (functionName s) r v)]
  | _, _ => []
  end.

Record invariant (s : State) : Prop := {
  inv_length : length (promises s) = length (records s);
  inv_published : forall i, publishedFor i s = expectedFor s i;
  inv_fulfilled : forall vs, all s = Fulfilled vs -> promises s = map Fulfilled vs;
  inv_rejected : forall e, all s = Rejected e -> Rejected e ∈ promises s;
  inv_pending : all s = Pending -> promise_all (promises s) = Pending
}.

(** The calls of the continuation follow [Promise.all(promises)]. *)
Definition callsOk (takes callback : bool) (s : State) : Prop :=
  callbackCalls s = if takes && callback then outerReaction (all s) else [].

End ResponderSpec.

(** ** Concrete handlers and batches *)

Module ResponderRuns.
Import Responder.

Definition request (requestId data : string) : ScatherRecord :=
  {| message := data;
     attributes :=
       {| ScatherDirection := "request"; ScatherFunctionName := "aggregator";
          ScatherResponseArn := "replies"; ScatherRequestId := requestId |} |}.

Definition context : option Context :=
  Some {| ctxFunctionName := Some "responder" |}.

(** [function echo(message, attributes, callback) { callback(null, message); }]
    of the test suite. *)
Definition echo : Handler :=
  {| source := "function echo(message, attributes, callback) { callback(null, message); }";
     call2 := fun message _ => Throw "TypeError: callback is not a function";
     call3 := fun message _ => ([(None, message)], Return "") |}.

(** A handler with a continuation that raises on the message [bad] and
    otherwise answers in a later job. *)
Definition failOrAnswerLater : Handler :=
  {| source := "function (message, context, callback) { if (message === 'bad') throw Error('boom'); setTimeout(function () { callback(null, message); }, 10); }";
     call2 := fun message _ =>
       if String.eqb message "bad" then Throw "boom" else Return "";
     call3 := fun message _ =>
       if String.eqb message "bad" then ([], Throw "boom") else ([], Return "") |}.

(** A handler without a continuation that raises on the message [bad]
    and otherwise returns its message. *)
Definition failOrReturn : Handler :=
  {| source := "function (message, context) { if (message === 'bad') throw Error('boom'); return message; }";
     call2 := fun message _ =>
       if String.eqb message "bad" then Throw "boom" else Return message;
     call3 := fun message _ =>
       if String.eqb message "bad" then ([], Throw "boom") else ([], Return message) |}.

Definition batch : list ScatherRecord :=
  [request "id-1" "one"; request "id-2" "bad"; request "id-3" "three"].

(** A handler declared with two parameters, the second with a default
    value; it returns its result and knows of no continuation. *)
Definition withDefault : CallbackArguments.FunctionDecl :=
  {| CallbackArguments.fn_name := "handler";
     CallbackArguments.fn_params := ["data"; "meta = [1, 2]"];
     CallbackArguments.fn_body := " return data; " |}.

Definition defaulted : Handler :=
  {| source := CallbackArguments.toString withDefault;
     call2 := fun message _ => Return message;
     call3 := fun message _ => ([], Return message) |}.

Definition stateOf (o : Outcome) : State :=
  match o with
  | Completed _ s => s
  | Threw _ =>
      {| functionName := ""; records := []; promises := []; all := Pending;
         published := []; callbackCalls := [] |}
  end.

End ResponderRuns.

(** ** Further predicates about the aggregator *)

Module AggregatorShape.
Import Aggregator AggregatorSpec.

(** Lines 48-53: the attributes of the request with id [uuid]. *)
Definition requestAttributes (config : Config) (uuid : string) : Attributes :=
  {| ScatherDirection := "request";
     ScatherFunctionName := functionName config;
     ScatherResponseArn := responseArn config;
     ScatherRequestId := uuid |}.

(** The records of [event] that [gatherer] of call [c] keeps (lines 95-98). *)
Definition relevant (c : Closure) (event : list ScatherRecord) : list ScatherRecord :=
  EventRecord.extractScatherRecords event (isResponseTo (ScatherRequestId (attrs c))).

Definition sender (r : ScatherRecord) : string :=
  ScatherFunctionName (attributes r).

(** The message of the last record of [rs] sent by [key]. *)
Definition lastMessage (key : string) (rs : list ScatherRecord) : option string :=
  foldl (fun acc r => if String.eqb (sender r) key then Some (message r) else acc)
        None rs.

(** What holds of call [k] in state [s] beyond [closureOk]. *)
Record closureShape (config : Config) (s : State) (k : nat) (c : Closure) : Prop := {
  shape_attrs : attrs c = requestAttributes config (ScatherRequestId (attrs c));
  shape_missing : missing c `sublist_of` expects config;
  shape_covered :
    forall x, x ∈ expects config -> x <> "__proto__" ->
      x ∈ missing c \/ x ∈ dom (readObject s k);
  shape_early :
    Defer.isPending (deferred c) = false ->
    fired (maxTimer c) = true \/ (missing c = [] /\ minTimeoutReached c = true);
  shape_complete :
    minTimeoutReached c = true -> missing c = [] ->
    Defer.isPending (deferred c) = false;
  shape_minFired : fired (minTimer c) = minTimeoutReached c
}.

Record shape (config : Config) (s : State) : Prop := {
  shape_closures :
    forall k c, closures s !! k = Some c -> closureShape config s k c;
  shape_published_length : length (published s) = length (closures s);
  shape_published :
    forall k c, closures s !! k = Some c ->
      exists data,
        published s !! k
          = Some (EventRecord.createPublishEvent (topicArn config) data (attrs c))
}.

(** No object [result] has an own property [__proto__]. *)
Definition plainKeys (s : State) : Prop :=
  Forall (fun object : gmap string string => "__proto__" ∉ dom object) (heap s).

(** From [s] to [s'] every call keeps what it has gathered: nothing comes
    back into [missing], no key leaves the object [result], and a timer that
    has run has run. *)
Definition keeps (s s' : State) : Prop :=
  forall k c, closures s !! k = Some c ->
    exists c', closures s' !! k = Some c' /\
      missing c' `sublist_of` missing c /\
      dom (readObject s k) ⊆ dom (readObject s' k) /\
      (minTimeoutReached c = true -> minTimeoutReached c' = true) /\
      (fired (maxTimer c) = true -> fired (maxTimer c') = true).

End AggregatorShape.

(** * Further runs and shapes *)

Module MoreRuns.
Import Aggregator AggregatorRuns.

(** Both expected replies are in and the minimum wait is over, but the
    first timer has not run yet. *)
Definition completeAtMinWait : list Event :=
  (earlyReplies ++ [Elapse 20])%list.

(** An event on the reply topic that holds nothing for request [id-1]: a
    reply to another request, and the request itself as it comes back when
    requests and replies share a topic. *)
Definition strayEvent : list ScatherRecord :=
  [reply "A" "id-0" "stale";
   {| message := "ping";
      attributes :=
        {| ScatherDirection := "request"; ScatherFunctionName := "aggregator";
           ScatherResponseArn := "replies"; ScatherRequestId := "id-1" |} |}].

(** [A] replies twice to request [id-1] in one event, [X] once. *)
Definition repeatedReplies : list ScatherRecord :=
  [reply "A" "id-1" "first"; reply "X" "id-1" "x"; reply "A" "id-1" "second"].

(** What is tried after the listener has been taken off the topic. *)
Definition afterTeardown : list Event :=
  [Invoke "again" false "id-2"; Deliver [reply "B" "id-1" "late"];
   Elapse 1000; MinTimeout 0].

(** Two requests outstanding at once. *)
Definition twoRequests : list Event :=
  [Invoke "ping" false "id-1"; Invoke "pong" false "id-2"].

(** A second request is accepted 100 ms after [unsubscribe] was called
    while the first was outstanding. *)
Definition unsubscribeLate : list Event :=
  [Invoke "ping" false "id-1"; Unsubscribe; Elapse 100;
   Invoke "pong" false "id-2"; Elapse 400].

(** [unsubscribe] is called twice, a second request being accepted in
    between. *)
Definition secondRequest : list Event :=
  [Invoke "ping" false "id-1"; Unsubscribe; Elapse 100;
   Invoke "pong" false "id-2"].

(** The first request settles at its maximum wait and the reaction of the
    first call of [unsubscribe] runs. *)
Definition firstDrained : list Event :=
  [Elapse 400; MaxTimeout 0; UnsubscribeReaction 0].

(** Waits of [2^31] ms, one more than node's timers take as given, and
    nothing expected. *)
Definition longWait : nat := Z.to_nat 2147483648.

Definition longConfig : Config :=
  {| topicArn := "requests"; cfgResponseArn := Some "replies";
     functionName := "aggregator"; expects := [];
     minWait := longWait; maxWait := longWait |}.

Definition oneMillisecond : list Event :=
  [Invoke "ping" false "id-1"; Elapse 1; MinTimeout 0].

(** A single expected responder, whose name is [__proto__]. *)
Definition protoConfig : Config :=
  {| topicArn := "requests"; cfgResponseArn := Some "replies";
     functionName := "aggregator"; expects := ["__proto__"];
     minWait := 50; maxWait := 500 |}.

Definition protoReplies : list Event :=
  [Invoke "ping" false "id-1"; Deliver [reply "__proto__" "id-1" "pong"];
   Elapse 50; MinTimeout 0].

End MoreRuns.

Module Transport.

(** Modelled from the spec: the transport between [EventInterface.fire] and
    the subscribers belongs to modules that are not among the source files
    ([./event-interface], [./event-record]).  Section 6 of the
    specification: a published event reaches the subscribers of its topic
    as a record with the payload and the attributes it was published
    with. *)
Definition asRecord (e : PublishEvent) : ScatherRecord :=
  {| message := pe_message e; attributes := pe_attributes e |}.

End Transport.

Module ResponderShape.
Import Responder ResponderSpec.


End ResponderShape.

Module CallbackArgumentsShape.
Import CallbackArguments.

Fixpoint hasBrace (s : string) : bool :=
  match s with
  | EmptyString => false
  | String c r => Ascii.eqb c "{"%char || hasBrace r
  end.

(** An identifier does not begin with a parenthesis. *)
Definition named (f : FunctionDecl) : Prop :=
  match fn_name f with
  | EmptyString => False
  | String c _ => c <> "("%char
  end.

(** [(a, b) => a + b]: an arrow function whose body is an expression. *)
Definition sum : Responder.Handler :=
  {| Responder.source := "(a, b) => a + b";
     Responder.call2 := fun a b => Responder.Return a;
     Responder.call3 := fun a b => ([], Responder.Return a) |}.

Definition echoDecl : FunctionDecl :=
  {| fn_name := "echo";
     fn_params := ["message"; "attributes"; "callback"];
     fn_body := " callback(null, message); " |}.

Definition anonymousDecl : FunctionDecl :=
  {| fn_name := "";
     fn_params := ["message"; "context"];
     fn_body := " return message; " |}.

End CallbackArgumentsShape.

Module Log.

(** Lines 191-195 of the module [log] (the second document of
    [src/unnamed/part_000]).  [length] is a JavaScript number, negative
    when the caller's subtraction is; [substr(0, length)] is empty then. *)
Fixpoint pad (fuel : nat) (str : string) (length : Z) : string :=
  match fuel with
  | 0 => str
  | S fuel' =>
      if (Z.of_nat (String.length str) <? length)%Z
      then pad fuel' (str ++ " ") length
      else str
  end.

Definition fixedLength (str : string) (length : Z) : string :=
  let str := String.substring 0 (Z.to_nat length) str in
  pad (Z.to_nat length) str length.

Fixpoint spaces (n : nat) : string :=
  match n with
  | 0 => ""
  | S n' => " " ++ spaces n'
  end.

End Log.

(** * Properties of the aggregator *)

Module AggregatorFacts.
Import Aggregator AggregatorSpec.

(** *** Promise combinators *)

Lemma resolve_pending {V} (v : V) (p : promise V) :
  Defer.isPending (Defer.resolve v p) = false.
Proof. by destruct p. Qed.

Lemma resolve_settled {V} (v : V) (p : promise V) :
  Defer.isPending p = false -> Defer.resolve v p = p.
Proof. by destruct p. Qed.

Lemma promise_all_catch_not_rejected {V} (ps : list (promise V)) e :
  promise_all (map catch_fnUndefined ps) <> Rejected e.
Proof.
  induction ps as [|p ps IH]; simpl; [done|].
  destruct p; simpl; destruct (promise_all (map catch_fnUndefined ps)); congruence.
Qed.

Lemma promise_all_catch_fulfilled {V} (ps : list (promise V)) :
  (exists vs, promise_all (map catch_fnUndefined ps) = Fulfilled vs) <->
  Forall (fun p => Defer.isPending p = false) ps.
Proof.
  induction ps as [|p ps IH]; simpl.
  - split; [constructor | eauto].
  - pose proof (promise_all_catch_not_rejected ps) as NR.
    destruct p; simpl.
    + split.
      * intros [vs H]. destruct (promise_all (map catch_fnUndefined ps)); discriminate.
      * intros H. inversion H; subst. discriminate.
    + split.
      * intros [vs H]. constructor; [done|]. apply IH.
        destruct (promise_all (map catch_fnUndefined ps)); eauto; discriminate.
      * intros H. inversion H as [|? ? _ Hps]; subst. apply IH in Hps as [vs ->]. eauto.
    + split.
      * intros [vs H]. constructor; [done|]. apply IH.
        destruct (promise_all (map catch_fnUndefined ps)); eauto; discriminate.
      * intros H. inversion H as [|? ? _ Hps]; subst. apply IH in Hps as [vs ->]. eauto.
Qed.

(** *** The loop of [gatherer] *)

Lemma storeRecord_keys records : forall acc key,
  key ∈ dom (snd (foldl storeRecord acc records)) ->
  key ∈ dom (snd acc) \/
  exists r, r ∈ records /\ ScatherFunctionName (attributes r) = key.
Proof.
  induction records as [|r records IH]; intros acc key Hkey; simpl in *.
  - by left.
  - apply IH in Hkey as [Hkey | (r' & Hin & Hr')].
    + simpl in Hkey. unfold assign in Hkey.
      destruct (String.eqb _ "__proto__"); [by left|].
      rewrite dom_insert_L in Hkey.
      apply elem_of_union in Hkey as [Hkey | Hkey].
      * apply elem_of_singleton in Hkey. right. exists r. split; [left | done].
      * by left.
    + right. exists r'. split; [by right | done].
Qed.

Lemma extract_elem event f (r : ScatherRecord) :
  r ∈ EventRecord.extractScatherRecords event f -> r ∈ event /\ f r = true.
Proof.
  unfold EventRecord.extractScatherRecords.
  rewrite !list_elem_of_In. apply filter_In.
Qed.

(** *** One call of [gatherer] *)

Lemma gatherer_settled s k c event :
  closures s !! k = Some c -> Defer.isPending (deferred c) = false ->
  gatherer k event s = s.
Proof. intros Hc Hp. unfold gatherer. by rewrite Hc, Hp. Qed.

Lemma gatherer_unknown s k event :
  closures s !! k = None -> gatherer k event s = s.
Proof. intros Hc. unfold gatherer. by rewrite Hc. Qed.

Ltac gatherer_cases s j c Hc Hp :=
  unfold gatherer;
  destruct (closures s !! j) as [c|] eqn:Hc;
  [destruct (Defer.isPending (deferred c)) eqn:Hp; simpl | ].

Lemma sameFrame_refl s : sameFrame s s.
Proof. unfold sameFrame; tauto. Qed.

Lemma evolves_refl s : evolves s s.
Proof.
  constructor; [lia | intros k c Hk; exists c; by repeat split | eauto].
Qed.

Lemma keysVia_refl event s : keysVia event s s.
Proof.
  intros k c' key Hk Hkey. left. split; [done | by eapply lookup_lt_Some].
Qed.

Lemma keysVia_same event s s' :
  closures s' = closures s -> heap s' = heap s -> keysVia event s s'.
Proof.
  intros Hc Hh k c' key Hk Hkey. left. unfold readObject in *.
  rewrite Hh in Hkey. rewrite Hc in Hk. split; [done | by eapply lookup_lt_Some].
Qed.

Lemma gatherer_frame s j event : sameFrame s (gatherer j event s).
Proof.
  gatherer_cases s j c Hc Hp; try apply sameFrame_refl.
  unfold sameFrame; simpl; rewrite ?length_insert; tauto.
Qed.

Lemma gatherer_wf s j event : wf s -> wf (gatherer j event s).
Proof.
  intros [Hh Hr Hg]. gatherer_cases s j c Hc Hp; try by constructor.
  constructor; simpl; rewrite ?length_insert; try done.
  intros k c' Hk. apply list_lookup_insert_Some in Hk as [(-> & <- & _) | [_ Hk]].
  - simpl. eauto.
  - eauto.
Qed.

Lemma gatherer_evolves s j event : wf s -> evolves s (gatherer j event s).
Proof.
  intros [Hh Hr Hg].
  gatherer_cases s j c Hc Hp; try apply evolves_refl.
  constructor; simpl; [lia | | eauto].
  intros k c0 Hk. destruct (decide (j = k)) as [->|Hne].
  - assert (c0 = c) as -> by congruence.
    eexists. split.
    + apply list_lookup_insert_eq. by eapply lookup_lt_Some.
    + repeat split; simpl; congruence.
  - exists c0. rewrite list_lookup_insert_ne by done.
    repeat split; try done.
    intros _. apply list_lookup_insert_ne. by rewrite (Hr j c Hc).
Qed.

Lemma gatherer_ok config s j event :
  (forall k c, closures s !! k = Some c -> closureOk config (now s) c) ->
  forall k c, closures (gatherer j event s) !! k = Some c ->
    closureOk config (now (gatherer j event s)) c.
Proof.
  intros Hok. gatherer_cases s j c Hc Hp; try exact Hok.
  intros k c' Hk. apply list_lookup_insert_Some in Hk as [(-> & <- & _) | [_ Hk]];
    [|by eapply Hok].
  destruct (Hok _ _ Hc) as [H1 H2 H3 H4 H5 H6].
  constructor; simpl; try done.
  - intros Hf. destruct (H4 Hf) as [_ Hs]. congruence.
  - destruct (_ && _) eqn:Hres; [|congruence].
    intros _. apply andb_true_iff in Hres as [_ Hmin]. specialize (H3 Hmin). lia.
  - destruct (_ && _); [|exact H6]. right.
    destruct (deferred c); simpl in *; done.
Qed.

Lemma gatherer_keys s j event : wf s -> keysVia event s (gatherer j event s).
Proof.
  intros [Hh Hr Hg].
  gatherer_cases s j c Hc Hp; try apply keysVia_refl.
  intros k c' key Hk Hkey. simpl in *.
  apply list_lookup_insert_Some in Hk as [(-> & <- & Hlt) | [Hne Hk]].
  - unfold readObject in Hkey. simpl in Hkey.
    rewrite (Hr _ _ Hc) in Hkey.
    rewrite list_lookup_insert_eq in Hkey by lia. simpl in Hkey.
    apply storeRecord_keys in Hkey as [Hkey | (r & Hin & Hsender)].
    + left. simpl in Hkey. split; [done | lia].
    + right. apply extract_elem in Hin as [Hin Hresp]. eauto.
  - left. split; [|by eapply lookup_lt_Some].
    unfold readObject in *. simpl in Hkey.
    rewrite list_lookup_insert_ne in Hkey; [done|]. by rewrite (Hr j c Hc).
Qed.

(** *** Later states *)

Lemma closureEvolves_refl c : closureEvolves c c.
Proof. by repeat split. Qed.

Lemma closureEvolves_trans c1 c2 c3 :
  closureEvolves c1 c2 -> closureEvolves c2 c3 -> closureEvolves c1 c3.
Proof.
  intros (A1 & R1 & I1 & S1) (A2 & R2 & I2 & S2).
  split; [congruence|]. split; [congruence|]. split; [congruence|].
  intros Hp. destruct (S1 Hp) as [D1 M1].
  assert (Defer.isPending (deferred c2) = false) as Hp2 by congruence.
  destruct (S2 Hp2). split; congruence.
Qed.

Lemma evolves_trans s1 s2 s3 : evolves s1 s2 -> evolves s2 s3 -> evolves s1 s3.
Proof.
  intros [N1 C1 U1] [N2 C2 U2]. constructor; [lia | |].
  - intros k c Hk. destruct (C1 k c Hk) as (c2 & Hk2 & E1 & H1).
    destruct (C2 k c2 Hk2) as (c3 & Hk3 & E2 & H2).
    exists c3. split; [done|]. split; [by eapply closureEvolves_trans|].
    intros Hp. rewrite <- (H1 Hp). apply H2.
    destruct E1 as (_ & _ & _ & S1). destruct (S1 Hp). congruence.
  - intros n u Hn. destruct (U1 n u Hn) as (u2 & Hn2 & W1 & R1).
    destruct (U2 n u2 Hn2) as (u3 & Hn3 & W2 & R2).
    exists u3. repeat split; [done | congruence | auto].
Qed.

Lemma sameFrame_trans s1 s2 s3 :
  sameFrame s1 s2 -> sameFrame s2 s3 -> sameFrame s1 s3.
Proof. unfold sameFrame. intuition congruence. Qed.

Lemma keysVia_trans event s1 s2 s3 :
  keysVia event s1 s2 -> evolves s2 s3 -> keysVia event s2 s3 ->
  keysVia event s1 s3.
Proof.
  intros K1 [_ C2 _] K2 k c3 key Hk Hkey.
  destruct (K2 k c3 key Hk Hkey) as [[Hkey2 Hlt] | Hr]; [|by right].
  apply lookup_lt_is_Some in Hlt as [c2 Hk2].
  destruct (C2 k c2 Hk2) as (c3' & Hk3 & (A & _) & _).
  assert (c3' = c3) as -> by congruence.
  destruct (K1 k c2 key Hk2 Hkey2) as [? | (r & Hin & Hresp & Hs)]; [by left|].
  right. exists r. by rewrite A.
Qed.

Lemma settled_lookup s k :
  settled s k <->
  exists c, closures s !! k = Some c /\ Defer.isPending (deferred c) = false.
Proof.
  unfold settled, promiseState. destruct (closures s !! k) as [c|]; split.
  - eauto.
  - by intros (c' & [= <-] & ?).
  - done.
  - by intros (c' & ? & ?).
Qed.

Lemma settled_evolves s s' k : evolves s s' -> settled s k -> settled s' k.
Proof.
  intros [_ C _]. rewrite !settled_lookup. intros (c & Hk & Hp).
  destruct (C k c Hk) as (c' & Hk' & (_ & _ & _ & S) & _).
  exists c'. split; [done|]. destruct (S Hp). congruence.
Qed.

(** *** [runGatherers] *)

Lemma runGatherers_ind (P : State -> Prop) event :
  (forall s j, P s -> P (gatherer j event s)) ->
  forall s, P s -> P (runGatherers event s).
Proof.
  intros Hstep s. unfold runGatherers. generalize (gatherers s) as l.
  intros l. revert s. induction l as [|a l IH]; intros s Hs; simpl; [done|].
  apply IH, Hstep, Hs.
Qed.

Lemma runGatherers_sound config event s :
  wf s ->
  (forall k c, closures s !! k = Some c -> closureOk config (now s) c) ->
  let s' := runGatherers event s in
  wf s' /\
  (forall k c, closures s' !! k = Some c -> closureOk config (now s') c) /\
  evolves s s' /\ sameFrame s s' /\ keysVia event s s'.
Proof.
  intros Hwf Hok. simpl.
  apply (runGatherers_ind
           (fun s' => wf s' /\
              (forall k c, closures s' !! k = Some c -> closureOk config (now s') c) /\
              evolves s s' /\ sameFrame s s' /\ keysVia event s s')).
  - intros s1 j (W & O & E & F & K).
    split; [by apply gatherer_wf|].
    split; [by apply gatherer_ok|].
    split; [eapply evolves_trans; [done | by apply gatherer_evolves]|].
    split; [eapply sameFrame_trans; [done | by apply gatherer_frame]|].
    eapply keysVia_trans; [done | by apply gatherer_evolves | by apply gatherer_keys].
  - split; [done|]. split; [done|].
    split; [apply evolves_refl|]. split; [apply sameFrame_refl | apply keysVia_refl].
Qed.

(** *** One transition *)

Lemma allActive_S n :
  allActive (S n) = (allActive n ++ [ {| gatherer_of := n; promise_of := n |} ])%list.
Proof. unfold allActive. by rewrite seq_S, map_app. Qed.

Lemma allActive_promises n : map promise_of (allActive n) = seq 0 n.
Proof.
  unfold allActive. rewrite map_map. simpl. apply map_id.
Qed.

Lemma closureOk_later config t t' c :
  t <= t' -> closureOk config t c -> closureOk config t' c.
Proof.
  intros Ht [H1 H2 H3 H4 H5 H6]. constructor; try done.
  - intros H. specialize (H3 H). lia.
  - intros H. destruct (H4 H). split; [lia | done].
  - intros H. specialize (H5 H). lia.
Qed.

(** A callback that rewrites the variables of call [k] only. *)
Lemma with_closure_sound config s k c c' :
  invariant config s ->
  closures s !! k = Some c ->
  closureEvolves c c' ->
  closureOk config (now s) c' ->
  let s' := with_closure k c' s in
  invariant config s' /\ evolves s s' /\ keysVia [] s s'.
Proof.
  intros [W O U T L] Hk E Hok. simpl.
  assert (k < length (closures s)) as Hlt by (by eapply lookup_lt_Some).
  assert (evolves s (with_closure k c' s)) as Hev.
  { constructor; simpl; [lia | | eauto].
    intros j c0 Hj. destruct (decide (k = j)) as [<-|Hne].
    - assert (c0 = c) as -> by congruence.
      exists c'. by rewrite list_lookup_insert_eq.
    - exists c0. rewrite list_lookup_insert_ne by done.
      split; [done|]. split; [apply closureEvolves_refl | done]. }
  split; [|split; [done|]].
  - destruct W as [Hh Hr Hg]. constructor; simpl.
    + constructor; simpl; rewrite ?length_insert; try done.
      intros j c0 Hj.
      apply list_lookup_insert_Some in Hj as [(<- & <- & _) | [_ Hj]]; [|eauto].
      destruct E as (_ & -> & _). eauto.
    + intros j c0 Hj.
      apply list_lookup_insert_Some in Hj as [(<- & <- & _) | [_ Hj]]; eauto.
    + intros n u Hn. destruct (U n u Hn) as [U1 U2 U3].
      constructor; simpl; rewrite ?length_insert; try done.
      intros Hr' j Hj. eapply settled_evolves; [done | eauto].
    + done.
    + done.
  - intros j c0 key Hj Hkey. left. simpl in Hj.
    split; [done|]. apply lookup_lt_Some in Hj. by rewrite length_insert in Hj.
Qed.

Lemma minTimeoutCallback_evolves c : closureEvolves c (minTimeoutCallback c).
Proof.
  unfold closureEvolves. simpl. split; [done|]. split; [done|]. split; [done|].
  intros Hp. by rewrite Hp, andb_false_r.
Qed.

Lemma maxTimeoutCallback_evolves c : closureEvolves c (maxTimeoutCallback c).
Proof.
  unfold closureEvolves. simpl. split; [done|]. split; [done|]. split; [done|].
  intros Hp. by rewrite Hp.
Qed.

Lemma timeoutDelay_le d : timeoutDelay d <= d.
Proof. unfold timeoutDelay, maxDelay. destruct (Z.ltb_spec 2147483647 (Z.of_nat d)); lia. Qed.

Lemma timeoutDelay_above d :
  (maxDelay < Z.of_nat d)%Z -> timeoutDelay d = 1.
Proof. unfold timeoutDelay, maxDelay. destruct (Z.ltb_spec 2147483647 (Z.of_nat d)); lia. Qed.

(** With waits above [maxDelay] and nothing expected, the first timer runs
    after one millisecond and fulfils the promise. *)
Lemma waits_above_range config :
  expects config = [] ->
  (maxDelay < Z.of_nat (minWait config))%Z ->
  exists s c,
    run config init
      [Invoke "ping" false "id-1"; Elapse 1; MinTimeout 0] = Some s /\
    closures s !! 0 = Some c /\
    deferred c = Fulfilled 0 /\
    invokedAt c = 0 /\
    now s = 1.
Proof.
  intros Hexp Hmin. eexists. eexists.
  split.
  { simpl. unfold runsFrom. simpl.
    rewrite (timeoutDelay_above _ Hmin). simpl. reflexivity. }
  split; [reflexivity|]. simpl. by rewrite Hexp.
Qed.

Lemma timeoutDelay_in_range d :
  (Z.of_nat d <= maxDelay)%Z -> timeoutDelay d = d.
Proof. unfold timeoutDelay, maxDelay. destruct (Z.ltb_spec 2147483647 (Z.of_nat d)); lia. Qed.

Lemma minTimeoutCallback_ok config t c :
  runsFrom (minTimer c) <= t -> closureOk config t c ->
  closureOk config t (minTimeoutCallback c).
Proof.
  intros Hdue [H1 H2 H3 H4 H5 H6]. unfold runsFrom in Hdue.
  destruct H1 as [A1 D1]. rewrite A1, D1 in Hdue.
  constructor; simpl; try done; try (by split).
  - intros Hf. destruct (H4 Hf) as [? Hp]. split; [done|].
    by rewrite Hp, andb_false_r.
  - intros _. lia.
  - destruct (_ && _) eqn:Hres; [|done]. right.
    apply andb_true_iff in Hres as [_ Hp]. by destruct (deferred c).
Qed.

Lemma maxTimeoutCallback_ok config t c :
  runsFrom (maxTimer c) <= t -> closureOk config t c ->
  closureOk config t (maxTimeoutCallback c).
Proof.
  intros Hdue [H1 H2 H3 H4 H5 H6]. unfold runsFrom in Hdue.
  destruct H2 as [A2 D2]. rewrite A2, D2 in Hdue.
  constructor; simpl; try done; try (by split).
  - intros _. split; [lia|]. by destruct (deferred c).
  - intros _. lia.
  - destruct (Defer.isPending (deferred c)) eqn:Hp; [|done]. right.
    by destruct (deferred c).
Qed.

Lemma markFinally_evolves c : closureEvolves c (markFinally c).
Proof. by repeat split. Qed.

Lemma markFinally_ok config t c :
  closureOk config t c -> closureOk config t (markFinally c).
Proof. intros [H1 H2 H3 H4 H5 H6]. by constructor. Qed.

Lemma aggregator_sound config data callback uuid s :
  invariant config s ->
  let s' := fst (aggregator config data callback uuid s) in
  invariant config s' /\ evolves s s' /\ keysVia [] s s'.
Proof.
  intros Hinv. simpl. unfold aggregator.
  destruct (subscribed s) eqn:Hsub; simpl;
    [|split; [done|]; split; [apply evolves_refl | apply keysVia_refl]].
  destruct Hinv as [[Hh Hr Hg] O U T L].
  assert (forall k c, closures s !! k = Some c ->
            (closures s ++ [c])%list !! k = Some c) as Hold.
  { intros k c Hk. by apply lookup_app_l_Some. }
  split; [|split].
  - constructor; simpl.
    + constructor; simpl.
      * rewrite !length_app. simpl. lia.
      * intros k c Hk. apply lookup_app_Some in Hk as [Hk | [Hge Hk]]; [eauto|].
        apply list_lookup_singleton_Some in Hk as [Hz <-]. simpl. lia.
      * rewrite length_app. simpl. rewrite Nat.add_1_r, allActive_S. by rewrite Hg.
    + intros k c Hk. apply lookup_app_Some in Hk as [Hk | [Hge Hk]]; [eauto|].
      apply list_lookup_singleton_Some in Hk as [Hz <-].
      constructor; simpl; try done. by left.
    + intros n u Hn. destruct (U n u Hn) as [U1 U2 U3].
      constructor; simpl; [done | rewrite length_app; lia |].
      intros Hre k Hk. specialize (U3 Hre k Hk).
      apply settled_lookup in U3 as (c & Hc & Hp).
      apply settled_lookup. exists c. split; [|done]. simpl. by apply lookup_app_l_Some.
    + simpl in *. by rewrite Hsub in *.
    + simpl. congruence.
  - constructor; simpl; [lia | | eauto].
    intros k c Hk. exists c. split; [by apply lookup_app_l_Some|].
    split; [apply closureEvolves_refl|]. intros _.
    apply lookup_app_l. rewrite Hh. by eapply lookup_lt_Some.
  - intros k c key Hk Hkey. simpl in *.
    apply lookup_app_Some in Hk as [Hk | [Hge Hk]].
    + left. split; [|by eapply lookup_lt_Some].
      unfold readObject in *. simpl in Hkey.
      rewrite lookup_app_l in Hkey; [done|]. rewrite Hh. by eapply lookup_lt_Some.
    + apply list_lookup_singleton_Some in Hk as [Hz _].
      assert (k = length (heap s)) as -> by lia.
      unfold readObject in Hkey. simpl in Hkey.
      rewrite list_lookup_middle in Hkey by done. simpl in Hkey. set_solver.
Qed.

Lemma elapse_sound config dt s :
  invariant config s ->
  invariant config (elapse dt s) /\ evolves s (elapse dt s) /\
  keysVia [] s (elapse dt s).
Proof.
  intros [W O U T L]. split; [|split].
  - constructor; simpl; try done.
    + destruct W as [Hh Hr Hg]. by constructor.
    + intros k c Hk. eapply closureOk_later; [|eauto]. lia.
    + intros n u Hn. destruct (U n u Hn). by constructor.
  - constructor; simpl; [lia | | eauto].
    intros k c Hk. exists c. split; [done|]. split; [apply closureEvolves_refl | done].
  - by apply keysVia_same.
Qed.

Lemma deliver_sound config event s :
  invariant config s ->
  let s' := if listening s then runGatherers event s else s in
  invariant config s' /\ evolves s s' /\ keysVia event s s'.
Proof.
  intros Hinv. simpl. destruct (listening s);
    [|split; [done|]; split; [apply evolves_refl | apply keysVia_refl]].
  destruct Hinv as [W O U T L].
  destruct (runGatherers_sound config event s W O) as (W' & O' & E & F & K).
  destruct F as (F1 & F2 & F3 & F4 & F5 & F6 & F7 & F8).
  split; [|done].
  constructor; try done.
  - intros n u Hn. rewrite F6 in Hn. destruct (U n u Hn) as [U1 U2 U3].
    constructor; [done | by rewrite F7 |].
    intros Hre k Hk. eapply settled_evolves; eauto.
  - by rewrite F6, F2.
  - by rewrite F4, F2.
Qed.

Lemma unsubscribe_sound config s :
  invariant config s ->
  invariant config (unsubscribe s) /\ evolves s (unsubscribe s) /\
  keysVia [] s (unsubscribe s).
Proof.
  intros [W O U T L]. split; [|split].
  - constructor; simpl; try done.
    + destruct W as [Hh Hr Hg]. by constructor.
    + intros n u Hn. apply lookup_app_Some in Hn as [Hn | [_ Hn]].
      * destruct (U n u Hn). by constructor.
      * apply list_lookup_singleton_Some in Hn as [_ <-].
        destruct W as [_ _ Hg].
        constructor; simpl; rewrite Hg, allActive_promises, ?length_seq; done.
    + rewrite <- T. split.
      * intros (n & u & Hn & Hre).
        apply lookup_app_Some in Hn as [Hn | [_ Hn]]; [eauto|].
        apply list_lookup_singleton_Some in Hn as [_ <-]. done.
      * intros (n & u & Hn & Hre). exists n, u. split; [|done].
        by apply lookup_app_l_Some.
  - constructor; simpl; [lia | |].
    + intros k c Hk. exists c. split; [done|].
      split; [apply closureEvolves_refl | done].
    + intros n u Hn. exists u. split; [by apply lookup_app_l_Some | done].
  - by apply keysVia_same.
Qed.

Lemma unsubscribeAll_fulfilled s u vs :
  unsubscribeAll s u = Fulfilled vs ->
  forall k, k ∈ waitsFor u -> settled s k.
Proof.
  unfold unsubscribeAll. intros Hall k Hk.
  rewrite <- (map_map (promiseState s) catch_fnUndefined) in Hall.
  assert (Forall (fun p => Defer.isPending p = false)
            (map (promiseState s) (waitsFor u))) as Hf.
  { apply promise_all_catch_fulfilled. eauto. }
  rewrite Forall_forall in Hf. apply Hf.
  apply list_elem_of_In, in_map_iff. exists k. split; [done|].
  by apply list_elem_of_In.
Qed.

Lemma unsubscribeCallback_sound config n u s vs :
  invariant config s ->
  unsubscriptions s !! n = Some u ->
  unsubscribeAll s u = Fulfilled vs ->
  let s' := unsubscribeCallback n u s in
  invariant config s' /\ evolves s s' /\ keysVia [] s s'.
Proof.
  intros [W O U T L] Hn Hall. simpl.
  assert (n < length (unsubscriptions s)) as Hlt by (by eapply lookup_lt_Some).
  split; [|split].
  - constructor; simpl; try done.
    + destruct W as [Hh Hr Hg]. by constructor.
    + intros m u' Hm.
      apply list_lookup_insert_Some in Hm as [(<- & <- & _) | [_ Hm]].
      * destruct (U n u Hn) as [U1 U2 U3]. constructor; simpl; try done.
        intros _ k Hk. eapply unsubscribeAll_fulfilled; [done|].
        rewrite U1. apply elem_of_seq. lia.
      * destruct (U m u' Hm). by constructor.
    + split; [done|]. intros _. exists n. eexists.
      split; [by apply list_lookup_insert_eq | done].
  - constructor; simpl; [lia | |].
    + intros k c Hk. exists c. split; [done|].
      split; [apply closureEvolves_refl | done].
    + intros m u' Hm. destruct (decide (n = m)) as [<-|Hne].
      * eexists. split; [by apply list_lookup_insert_eq|].
        assert (u' = u) as -> by congruence. done.
      * exists u'. by rewrite list_lookup_insert_ne.
  - by apply keysVia_same.
Qed.

Lemma step_sound config s e s' :
  invariant config s -> step config s e = Some s' ->
  invariant config s' /\ evolves s s' /\ keysVia (eventRecords e) s s'.
Proof.
  intros Hinv Hstep. destruct e; simpl in Hstep.
  - injection Hstep as <-. by apply aggregator_sound.
  - injection Hstep as <-. by apply elapse_sound.
  - destruct (closures s !! k) as [c|] eqn:Hk; simpl in Hstep; [|done].
    destruct (_ && _) eqn:Hgo; [|done]. injection Hstep as <-.
    apply andb_true_iff in Hgo as [_ Hdue]. apply Nat.leb_le in Hdue.
    eapply with_closure_sound; [done | done | apply minTimeoutCallback_evolves |].
    apply minTimeoutCallback_ok; [done|]. by eapply inv_closures.
  - destruct (closures s !! k) as [c|] eqn:Hk; simpl in Hstep; [|done].
    destruct (_ && _) eqn:Hgo; [|done]. injection Hstep as <-.
    apply andb_true_iff in Hgo as [_ Hdue]. apply Nat.leb_le in Hdue.
    eapply with_closure_sound; [done | done | apply maxTimeoutCallback_evolves |].
    apply maxTimeoutCallback_ok; [done|]. by eapply inv_closures.
  - injection Hstep as <-. by apply deliver_sound.
  - destruct (closures s !! k) as [c|] eqn:Hk; simpl in Hstep; [|done].
    destruct (_ && _) eqn:Hgo; [|done]. injection Hstep as <-.
    unfold finallyCallback.
    eapply with_closure_sound; [done | done | apply markFinally_evolves |].
    apply markFinally_ok. by eapply inv_closures.
  - injection Hstep as <-. by apply unsubscribe_sound.
  - destruct (unsubscriptions s !! n) as [u|] eqn:Hn; simpl in Hstep; [|done].
    destruct (unsubscribeAll s u) as [|vs|] eqn:Hall; try done.
    destruct (reacted u); [done|]. injection Hstep as <-.
    by eapply unsubscribeCallback_sound.
Qed.

Lemma init_invariant config : invariant config init.
Proof.
  constructor; simpl; try done.
  split; [by intros (n & u & Hn & _) | done].
Qed.

Lemma run_sound config es : forall s s',
  invariant config s -> run config s es = Some s' ->
  invariant config s' /\ evolves s s'.
Proof.
  induction es as [|e es IH]; intros s s' Hinv Hrun; simpl in Hrun.
  - injection Hrun as <-. split; [done | apply evolves_refl].
  - destruct (step config s e) as [s1|] eqn:Hstep; simpl in Hrun; [|done].
    destruct (step_sound _ _ _ _ Hinv Hstep) as (Hinv1 & E1 & _).
    destruct (IH _ _ Hinv1 Hrun) as [Hinv' E']. split; [done|].
    by eapply evolves_trans.
Qed.

Lemma reachable_invariant config es s :
  run config init es = Some s -> invariant config s.
Proof. intros Hrun. by eapply run_sound; [apply init_invariant | ]. Qed.

Lemma delivered_cons e es :
  delivered (e :: es) = (eventRecords e ++ delivered es)%list.
Proof. by destruct e. Qed.

Lemma run_keys config es : forall s s',
  invariant config s -> run config s es = Some s' ->
  forall k c' key,
    closures s' !! k = Some c' ->
    key ∈ dom (readObject s' k) ->
    (key ∈ dom (readObject s k) /\ k < length (closures s)) \/
    (exists r, r ∈ delivered es /\
       isResponseTo (ScatherRequestId (attrs c')) r = true /\
       ScatherFunctionName (attributes r) = key).
Proof.
  induction es as [|e es IH]; intros s s' Hinv Hrun k c' key Hk Hkey;
    simpl in Hrun.
  - injection Hrun as <-. left. split; [done | by eapply lookup_lt_Some].
  - destruct (step config s e) as [s1|] eqn:Hstep; simpl in Hrun; [|done].
    destruct (step_sound _ _ _ _ Hinv Hstep) as (Hinv1 & E1 & K1).
    rewrite delivered_cons.
    destruct (IH _ _ Hinv1 Hrun k c' key Hk Hkey)
      as [[Hkey1 Hlt] | (r & Hin & Hresp & Hs)].
    + apply lookup_lt_is_Some in Hlt as [c1 Hk1].
      destruct (run_sound _ _ _ _ Hinv1 Hrun) as [_ [_ C _]].
      destruct (C k c1 Hk1) as (c2 & Hk2 & (A & _) & _).
      assert (c2 = c') as -> by congruence.
      destruct (K1 k c1 key Hk1 Hkey1) as [? | (r & Hin & Hresp & Hs)];
        [by left|].
      right. exists r. rewrite A. split; [|done].
      apply elem_of_app. by left.
    + right. exists r. split; [|done]. apply elem_of_app. by right.
Qed.

End AggregatorFacts.

(** * The claims about the aggregator *)

Module AggregatorClaims.
Import Aggregator AggregatorSpec AggregatorRuns AggregatorFacts.

(** A conjunction of closed equations, each decided by evaluation. *)
Ltac evaluate :=
  cbv zeta; repeat match goal with |- _ /\ _ => split end;
  vm_compute; reflexivity.

(** C1, as the code has it.  Lines 105-109 remove the sender from
    [missing] when it is there and store the message under the sender name
    in every case; [expects] is not consulted.  So at every point of a run
    each key of the object [result] of a call is the sender name of a
    record that was delivered to [runGatherers], has direction [response]
    and carries the request id of that call. *)
Theorem result_keys_are_reply_senders config es s k c key :
  run config init es = Some s ->
  closures s !! k = Some c ->
  key ∈ dom (readObject s (result c)) ->
  exists r,
    r ∈ delivered es /\
    ScatherDirection (attributes r) = "response" /\
    ScatherRequestId (attributes r) = ScatherRequestId (attrs c) /\
    ScatherFunctionName (attributes r) = key.
Proof.
  intros Hrun Hk Hkey.
  pose proof (reachable_invariant _ _ _ Hrun) as Hinv.
  rewrite (wf_result _ (inv_wf _ _ Hinv) _ _ Hk) in Hkey.
  destruct (run_keys _ _ _ _ (init_invariant config) Hrun k c key Hk Hkey)
    as [[Hin _] | (r & Hin & Hresp & Hs)].
  - unfold readObject in Hin. simpl in Hin. set_solver.
  - exists r. unfold isResponseTo in Hresp.
    apply andb_true_iff in Hresp as [Hd Hid].
    apply String.eqb_eq in Hd, Hid. done.
Qed.

Lemma result_keys_are_reply_senders_witness :
  exists r,
    r ∈ delivered unexpectedReply /\
    ScatherDirection (attributes r) = "response" /\
    ScatherRequestId (attributes r) = "id-1" /\
    ScatherFunctionName (attributes r) = "X".
Proof.
  apply (result_keys_are_reply_senders config unexpectedReply
           (stateAfter unexpectedReply) 0 (closureAfter unexpectedReply 0) "X").
  - vm_compute. reflexivity.
  - vm_compute. reflexivity.
  - apply elem_of_dom. vm_compute. eauto.
Defined.

(** C1, as the claim states it, fails: with [expects = ["A"; "B"]] a
    reply from [X] that answers the request is stored under the key [X]. *)
Lemma unexpected_sender_is_stored :
  exists s c,
    run config init unexpectedReply = Some s /\
    closures s !! 0 = Some c /\
    readObject s (result c) !! "X" = Some "pong" /\
    "X" ∉ expects config.
Proof.
  exists (stateAfter unexpectedReply). eexists.
  split. { vm_compute. reflexivity. }
  split. { vm_compute. reflexivity. }
  split. { vm_compute. reflexivity. }
  apply not_elem_of_cons. split; [done|].
  apply not_elem_of_cons. split; [done|]. apply not_elem_of_nil.
Qed.

(** C2, as the code has it.  With [minWait <= maxWait], both within the
    range of delays that node's timers take as they are (up to [maxDelay],
    that is [2^31 - 1] ms), a call whose promise is no longer pending was
    made at least [minWait] ago: nothing resolves the promise before the
    first timer has run, however many replies have arrived. *)
Theorem not_resolved_before_minWait config es s k c :
  minWait config <= maxWait config ->
  (Z.of_nat (maxWait config) <= maxDelay)%Z ->
  run config init es = Some s ->
  closures s !! k = Some c ->
  Defer.isPending (deferred c) = false ->
  invokedAt c + minWait config <= now s.
Proof.
  intros Hwait Hrange Hrun Hk Hp.
  pose proof (reachable_invariant _ _ _ Hrun) as Hinv.
  pose proof (ok_settled _ _ _ (inv_closures _ _ Hinv _ _ Hk) Hp) as H.
  rewrite !timeoutDelay_in_range in H by lia. lia.
Qed.

Lemma not_resolved_before_minWait_witness :
  invokedAt (closureAfter resolvedAtMinWait 0) + minWait config
    <= now (stateAfter resolvedAtMinWait).
Proof.
  apply (not_resolved_before_minWait config resolvedAtMinWait
           (stateAfter resolvedAtMinWait) 0 (closureAfter resolvedAtMinWait 0)).
  - vm_compute. lia.
  - unfold maxDelay. simpl. lia.
  - vm_compute. reflexivity.
  - vm_compute. reflexivity.
  - vm_compute. reflexivity.
Defined.

(** C2, as the claim states it, fails for waits beyond the range of the
    timers: with [minWait = maxWait = 2^31] and nothing expected, the first
    timer runs one millisecond after the call and fulfils the promise. *)
Lemma resolved_before_minWait_beyond_timer_range :
  exists s c,
    minWait MoreRuns.longConfig <= maxWait MoreRuns.longConfig /\
    run MoreRuns.longConfig init MoreRuns.oneMillisecond = Some s /\
    closures s !! 0 = Some c /\
    Defer.isPending (deferred c) = false /\
    now s < invokedAt c + minWait MoreRuns.longConfig.
Proof.
  assert (Z.of_nat MoreRuns.longWait = 2147483648%Z) as Hlong.
  { unfold MoreRuns.longWait. apply Z2Nat.id. lia. }
  destruct (waits_above_range MoreRuns.longConfig) as (s & c & Hrun & Hc & Hd & Hi & Hn).
  - reflexivity.
  - change (minWait MoreRuns.longConfig) with MoreRuns.longWait.
    rewrite Hlong. unfold maxDelay. lia.
  - exists s, c.
    split; [change (MoreRuns.longWait <= MoreRuns.longWait); apply le_n|].
    split; [exact Hrun|].
    split; [exact Hc|]. split; [rewrite Hd; reflexivity|]. rewrite Hn, Hi.
    change (minWait MoreRuns.longConfig) with MoreRuns.longWait.
    apply Nat2Z.inj_lt. rewrite Nat2Z.inj_add, Hlong. lia.
Qed.

(** Scenario 1 of the specification: both replies are in after 30 ms,
    [missing] is empty and the promise is still pending; it is resolved by
    the first timer, at 50 ms. *)
Example early_replies_wait_for_minWait :
  missing (closureAfter earlyReplies 0) = [] /\
  deferred (closureAfter earlyReplies 0) = Pending /\
  now (stateAfter earlyReplies) = 30 /\
  step config (stateAfter earlyReplies) (MinTimeout 0) = None /\
  deferred (closureAfter resolvedAtMinWait 0) = Fulfilled 0 /\
  now (stateAfter resolvedAtMinWait) = 50 /\
  map_to_list (readObject (stateAfter resolvedAtMinWait) 0)
    ≡ₚ [("A", "a"); ("B", "b")].
Proof.
  repeat split; vm_compute; reflexivity.
Qed.

(** C3.  The promise of a call is never rejected.  The second timer is
    armed for [maxWait] after the call; when the clock has reached that
    point and the promise is still pending, the timer can run, and its
    callback fulfils the promise with the object [result] as it is,
    whatever is left in [missing]; once the callback has run the promise
    is settled. *)
Theorem maxWait_fulfils_with_current_result config es s k c :
  run config init es = Some s ->
  closures s !! k = Some c ->
  (forall e, deferred c <> Rejected e) /\
  due (maxTimer c) = invokedAt c + maxWait config /\
  (fired (maxTimer c) = true -> Defer.isPending (deferred c) = false) /\
  (Defer.isPending (deferred c) = true ->
   invokedAt c + maxWait config <= now s ->
   exists s' c',
     step config s (MaxTimeout k) = Some s' /\
     closures s' !! k = Some c' /\
     deferred c' = Fulfilled (result c) /\
     fired (maxTimer c') = true /\
     missing c' = missing c /\
     result c' = result c /\
     heap s' = heap s).
Proof.
  intros Hrun Hk.
  pose proof (reachable_invariant _ _ _ Hrun) as Hinv.
  destruct (inv_closures _ _ Hinv _ _ Hk) as [H1 [A2 D2] H3 H4 H5 H6].
  split; [|split; [|split]].
  - intros e. destruct H6 as [-> | ->]; discriminate.
  - unfold due. by rewrite A2, D2.
  - intros Hf. by destruct (H4 Hf).
  - intros Hp Hdue.
    assert (fired (maxTimer c) = false) as Hnf.
    { destruct (fired (maxTimer c)); [|done]. destruct (H4 eq_refl). congruence. }
    exists (with_closure k (maxTimeoutCallback c) s), (maxTimeoutCallback c).
    split; [|split].
    + simpl. rewrite Hk. simpl. rewrite Hnf. simpl.
      assert (Nat.leb (runsFrom (maxTimer c)) (now s) = true) as ->; [|done].
      apply Nat.leb_le. unfold runsFrom. rewrite A2, D2.
      pose proof (timeoutDelay_le (maxWait config)). lia.
    + simpl. apply list_lookup_insert_eq. by eapply lookup_lt_Some.
    + simpl. rewrite Hp. by destruct (deferred c).
Qed.

Lemma maxWait_fulfils_with_current_result_witness :
  let s := stateAfter oneReplyThenMaxWait in
  let c := closureAfter oneReplyThenMaxWait 0 in
  missing c = ["B"] /\
  (forall e, deferred c <> Rejected e) /\
  due (maxTimer c) = invokedAt c + maxWait config /\
  (fired (maxTimer c) = true -> Defer.isPending (deferred c) = false) /\
  (Defer.isPending (deferred c) = true ->
   invokedAt c + maxWait config <= now s ->
   exists s' c',
     step config s (MaxTimeout 0) = Some s' /\
     closures s' !! 0 = Some c' /\
     deferred c' = Fulfilled (result c) /\
     fired (maxTimer c') = true /\
     missing c' = missing c /\
     result c' = result c /\
     heap s' = heap s).
Proof.
  split; [vm_compute; reflexivity|].
  apply (maxWait_fulfils_with_current_result config oneReplyThenMaxWait).
  - vm_compute. reflexivity.
  - vm_compute. reflexivity.
Defined.

(** Scenario 2 of the specification: only [A] replies; at 500 ms the
    promise is fulfilled with the object holding [A] alone. *)
Example partial_result_at_maxWait :
  deferred (closureAfter timedOut 0) = Fulfilled 0 /\
  missing (closureAfter timedOut 0) = ["B"] /\
  now (stateAfter timedOut) = 500 /\
  map_to_list (readObject (stateAfter timedOut) 0) = [("A", "a")].
Proof. repeat split; vm_compute; reflexivity. Qed.

(** C4.  Once the promise of a call has left the pending state, no
    sequence of callbacks (deliveries of replies with the request id of the
    call among them) changes [missing], the promise or the contents of the
    object [result]. *)
Theorem settled_request_is_frozen config es s k c es' s' :
  run config init es = Some s ->
  closures s !! k = Some c ->
  Defer.isPending (deferred c) = false ->
  run config s es' = Some s' ->
  exists c',
    closures s' !! k = Some c' /\
    deferred c' = deferred c /\
    missing c' = missing c /\
    result c' = result c /\
    readObject s' (result c') = readObject s (result c).
Proof.
  intros Hrun Hk Hp Hrun'.
  pose proof (reachable_invariant _ _ _ Hrun) as Hinv.
  destruct (run_sound _ _ _ _ Hinv Hrun') as [_ [_ C _]].
  destruct (C k c Hk) as (c' & Hk' & (_ & R & _ & S) & Hheap).
  destruct (S Hp) as [D M]. exists c'.
  split; [done|]. split; [done|]. split; [done|]. split; [done|].
  rewrite R, (wf_result _ (inv_wf _ _ Hinv) _ _ Hk).
  unfold readObject. by rewrite (Hheap Hp).
Qed.

Lemma settled_request_is_frozen_witness :
  exists c',
    closures (stateAfter (timedOut ++ lateReplies)) !! 0 = Some c' /\
    deferred c' = deferred (closureAfter timedOut 0) /\
    missing c' = missing (closureAfter timedOut 0) /\
    result c' = result (closureAfter timedOut 0) /\
    readObject (stateAfter (timedOut ++ lateReplies)) (result c')
      = readObject (stateAfter timedOut) (result (closureAfter timedOut 0)).
Proof.
  apply (settled_request_is_frozen config timedOut (stateAfter timedOut) 0
           (closureAfter timedOut 0) lateReplies).
  - vm_compute. reflexivity.
  - vm_compute. reflexivity.
  - vm_compute. reflexivity.
  - vm_compute. reflexivity.
Defined.

(** C5, as the code has it.  [unsubscribe] does not clear [subscribed] at
    the call but in the reaction of lines 134-137, which runs when every
    promise the call collected has settled.  So [subscribed] is false
    exactly when the reaction of some call of [unsubscribe] has run, as it
    has whenever the promise returned by a call of [unsubscribe] is
    fulfilled.  Once it is false it stays false, and every call of
    [aggregator] leaves the state, the published events included, as it is;
    a call without continuation returns a promise rejected with the error of
    line 45.  As long as it is true, also after calls of [unsubscribe], a
    call of [aggregator] is accepted and publishes its request. *)
Theorem invoke_rejected_after_unsubscribe_fulfilled
    config es s es' s' data callback uuid :
  run config init es = Some s ->
  run config s es' = Some s' ->
  (subscribed s = false <->
   exists n u, unsubscriptions s !! n = Some u /\ reacted u = true) /\
  (forall n u,
     unsubscriptions s !! n = Some u ->
     unsubscribeFuture s u = Fulfilled () ->
     subscribed s = false) /\
  (subscribed s = false ->
   subscribed s' = false /\
   fst (aggregator config data callback uuid s') = s' /\
   snd (aggregator config data false uuid s')
     = RejectedPromise unsubscribedError) /\
  (subscribed s = true ->
   snd (aggregator config data callback uuid s)
     = paradigm (length (closures s)) callback /\
   published (fst (aggregator config data callback uuid s))
     = (published s ++
         [EventRecord.createPublishEvent (topicArn config) data
            {| ScatherDirection := "request";
               ScatherFunctionName := functionName config;
               ScatherResponseArn := responseArn config;
               ScatherRequestId := uuid |}])%list).
Proof.
  intros Hrun Hrun'.
  pose proof (reachable_invariant _ _ _ Hrun) as Hinv.
  destruct (run_sound _ _ _ _ Hinv Hrun') as [Hinv' [_ _ U]].
  split; [|split; [|split]].
  - split; apply (inv_torn_down _ _ Hinv).
  - intros n u Hn Hf. apply (inv_torn_down _ _ Hinv). exists n, u.
    split; [done|]. unfold unsubscribeFuture in Hf.
    destruct (unsubscribeAll s u); try discriminate. by destruct (reacted u).
  - intros Hsub.
    assert (subscribed s' = false) as Hsub'.
    { apply (inv_torn_down _ _ Hinv').
      apply (inv_torn_down _ _ Hinv) in Hsub as (n & u & Hn & Hre).
      destruct (U n u Hn) as (u' & Hn' & _ & Hre'). exists n, u'. auto. }
    split; [done|]. unfold aggregator. by rewrite Hsub'.
  - intros Hsub. unfold aggregator. by rewrite Hsub.
Qed.

Lemma invoke_rejected_after_unsubscribe_fulfilled_witness :
  let s := stateAfter (unsubscribeWhileOutstanding ++ drained) in
  let s' := stateAfter
              (unsubscribeWhileOutstanding ++ drained ++ [Unsubscribe; Elapse 10]) in
  unsubscribeFuture s {| waitsFor := [0]; reacted := true |} = Fulfilled () /\
  subscribed s' = false /\
  fst (aggregator config "again" true "id-2" s') = s' /\
  snd (aggregator config "again" false "id-2" s')
    = RejectedPromise unsubscribedError.
Proof.
  split; [vm_compute; reflexivity|].
  refine (proj1 (proj2 (proj2 (invoke_rejected_after_unsubscribe_fulfilled config
            (unsubscribeWhileOutstanding ++ drained)
            (stateAfter (unsubscribeWhileOutstanding ++ drained))
            [Unsubscribe; Elapse 10]
            (stateAfter
               (unsubscribeWhileOutstanding ++ drained ++ [Unsubscribe; Elapse 10]))
            "again" true "id-2" _ _))) _).
  - vm_compute. reflexivity.
  - vm_compute. reflexivity.
  - vm_compute. reflexivity.
Defined.

(** C5, as the claim states it, fails: after the call of [unsubscribe]
    and while the first request is outstanding, [subscribed] is still true,
    and a call of [aggregator] is accepted: it returns the promise of a new
    request and publishes the request event. *)
Lemma invoke_accepted_after_unsubscribe_call :
  exists s,
    run config init unsubscribeWhileOutstanding = Some s /\
    subscribed s = true /\
    snd (aggregator config "again" false "id-2" s) = PromiseOf 1 /\
    published (fst (aggregator config "again" false "id-2" s))
      = (published s ++
          [EventRecord.createPublishEvent "requests" "again"
             {| ScatherDirection := "request";
                ScatherFunctionName := "aggregator";
                ScatherResponseArn := "replies";
                ScatherRequestId := "id-2" |}])%list.
Proof.
  exists (stateAfter unsubscribeWhileOutstanding).
  repeat split; vm_compute; reflexivity.
Qed.

(** Line 45 returns the rejected promise before line 121 hands the
    continuation to [defer.paradigm]: after the teardown a call with a
    continuation gets the rejected promise as well, where an accepted call
    with a continuation returns nothing. *)
Example invoke_with_continuation_after_teardown :
  let s := stateAfter (unsubscribeWhileOutstanding ++ drained) in
  aggregator config "again" true "id-2" s
    = (s, RejectedPromise unsubscribedError) /\
  snd (aggregator config "again" true "id-2" init) = Undefined.
Proof. split; vm_compute; reflexivity. Qed.

(** C6, as the code has it: call by call.  The first two parts hold in
    every state, also one in which a collected promise is rejected: the
    promise returned by [unsubscribe] is never rejected, and [Promise.all]
    of line 133 is fulfilled exactly when every collected promise has
    settled, fulfilled or rejected.  In a run, the call of [unsubscribe]
    made in state [s1] collects the promise of every call of [aggregator]
    accepted so far; its promise is fulfilled only in states where all of
    them have settled; its reaction, which takes the listener off the reply
    topic, can run only in such states.  The listener is shared by the
    calls of [unsubscribe]: whenever it is gone, some call of [unsubscribe]
    has seen all the promises it collected settle, which need not be the
    call under study (see [listener_removed_while_collected_request_pending]). *)
Theorem unsubscribe_waits_for_outstanding config es1 s1 es2 s3 u :
  run config init es1 = Some s1 ->
  run config (unsubscribe s1) es2 = Some s3 ->
  unsubscriptions s3 !! length (unsubscriptions s1) = Some u ->
  (forall (s0 : State) u0 e, unsubscribeFuture s0 u0 <> Rejected e) /\
  (forall (s0 : State) u0,
      (exists vs, unsubscribeAll s0 u0 = Fulfilled vs) <->
      (forall k, k ∈ waitsFor u0 -> settled s0 k)) /\
  waitsFor u = seq 0 (length (closures s1)) /\
  (unsubscribeFuture s3 u = Fulfilled () ->
   forall k, k < length (closures s1) -> settled s3 k) /\
  (forall s4,
      step config s3 (UnsubscribeReaction (length (unsubscriptions s1))) = Some s4 ->
      (forall k, k < length (closures s1) -> settled s3 k) /\
      listening s4 = false) /\
  (listening s3 = false ->
   exists n' u',
     unsubscriptions s3 !! n' = Some u' /\ reacted u' = true /\
     forall k, k ∈ waitsFor u' -> settled s3 k).
Proof.
  intros Hrun1 Hrun2 Hu.
  pose proof (reachable_invariant _ _ _ Hrun1) as Hinv1.
  destruct (unsubscribe_sound _ _ Hinv1) as (Hinv2 & _ & _).
  destruct (run_sound _ _ _ _ Hinv2 Hrun2) as [Hinv3 [_ _ U23]].
  assert (waitsFor u = seq 0 (length (closures s1))) as Hwaits.
  { destruct (U23 (length (unsubscriptions s1))
                {| waitsFor := map promise_of (gatherers s1); reacted := false |})
      as (u' & Hu' & Hw & _).
    { simpl. by apply list_lookup_middle. }
    assert (u' = u) as -> by congruence.
    rewrite Hw. simpl.
    by rewrite (wf_gatherers _ (inv_wf _ _ Hinv1)), allActive_promises. }
  destruct (inv_unsubscriptions _ _ Hinv3 _ _ Hu) as [_ _ Hreacted].
  rewrite Hwaits, length_seq in Hreacted.
  split; [|split; [|split; [done|split; [|split]]]].
  - intros s0 u0 e. unfold unsubscribeFuture, unsubscribeAll.
    rewrite <- (map_map (promiseState s0) catch_fnUndefined).
    pose proof (promise_all_catch_not_rejected
                  (map (promiseState s0) (waitsFor u0))) as NR.
    destruct (promise_all _) eqn:Hall; [done | by destruct (reacted u0) |].
    by destruct (NR e0).
  - intros s0 u0. unfold unsubscribeAll.
    rewrite <- (map_map (promiseState s0) catch_fnUndefined).
    rewrite promise_all_catch_fulfilled, Forall_forall. split.
    + intros H k Hk. apply H. apply list_elem_of_In, in_map_iff.
      exists k. split; [done | by apply list_elem_of_In].
    + intros H p Hp. apply list_elem_of_In, in_map_iff in Hp as (k & <- & Hk).
      apply H. by apply list_elem_of_In.
  - intros Hf. apply Hreacted.
    unfold unsubscribeFuture in Hf.
    destruct (unsubscribeAll s3 u); try discriminate. by destruct (reacted u).
  - intros s4 Hstep. simpl in Hstep. rewrite Hu in Hstep. simpl in Hstep.
    destruct (unsubscribeAll s3 u) as [|vs|] eqn:Hall; try discriminate.
    destruct (reacted u) eqn:Hre; [discriminate|]. injection Hstep as <-.
    split; [|done].
    intros k Hk. eapply unsubscribeAll_fulfilled; [done|].
    rewrite Hwaits. apply elem_of_seq. lia.
  - intros Hl. rewrite (inv_listening _ _ Hinv3) in Hl.
    apply (inv_torn_down _ _ Hinv3) in Hl as (n' & u' & Hn' & Hre').
    exists n', u'. split; [done|]. split; [done|].
    destruct (inv_unsubscriptions _ _ Hinv3 _ _ Hn') as [W' _ R'].
    intros k Hk. apply (R' Hre'). rewrite W' in Hk.
    apply elem_of_seq in Hk. lia.
Qed.

Lemma unsubscribe_waits_for_outstanding_witness :
  let s1 := stateAfter oneRequest in
  let s3 := stateAfter (unsubscribeWhileOutstanding ++ drained) in
  let u := {| waitsFor := [0]; reacted := true |} in
  (forall (s0 : State) u0 e, unsubscribeFuture s0 u0 <> Rejected e) /\
  (forall (s0 : State) u0,
      (exists vs, unsubscribeAll s0 u0 = Fulfilled vs) <->
      (forall k, k ∈ waitsFor u0 -> settled s0 k)) /\
  waitsFor u = seq 0 (length (closures s1)) /\
  (unsubscribeFuture s3 u = Fulfilled () ->
   forall k, k < length (closures s1) -> settled s3 k) /\
  (forall s4,
      step config s3 (UnsubscribeReaction (length (unsubscriptions s1))) = Some s4 ->
      (forall k, k < length (closures s1) -> settled s3 k) /\
      listening s4 = false) /\
  (listening s3 = false ->
   exists n' u',
     unsubscriptions s3 !! n' = Some u' /\ reacted u' = true /\
     forall k, k ∈ waitsFor u' -> settled s3 k).
Proof.
  apply (unsubscribe_waits_for_outstanding config oneRequest
           (stateAfter oneRequest) drained
           (stateAfter (unsubscribeWhileOutstanding ++ drained))
           {| waitsFor := [0]; reacted := true |}).
  - vm_compute. reflexivity.
  - vm_compute. reflexivity.
  - vm_compute. reflexivity.
Defined.

(** C6, as the claim states it, fails when calls of [unsubscribe]
    overlap.  A second request is accepted after the first call of
    [unsubscribe]; the second call of [unsubscribe] collects both requests.
    The first request settles and the reaction of the first call takes the
    listener off the topic, while the second request, outstanding at the
    second call, is pending (and so is the promise of the second call). *)
Lemma listener_removed_while_collected_request_pending :
  let s1 := stateAfter MoreRuns.secondRequest in
  let s3 :=
    stateAfter (MoreRuns.secondRequest ++ [Unsubscribe] ++ MoreRuns.firstDrained) in
  let u := {| waitsFor := [0; 1]; reacted := false |} in
  run config init MoreRuns.secondRequest = Some s1 /\
  run config (unsubscribe s1) MoreRuns.firstDrained = Some s3 /\
  unsubscriptions s3 !! length (unsubscriptions s1) = Some u /\
  promiseState s1 1 = Pending /\
  promiseState s3 1 = Pending /\
  unsubscribeFuture s3 u = Pending /\
  listening s3 = false.
Proof. evaluate. Qed.

(** The reaction of [unsubscribe] cannot run while the request it
    collected is pending, and its promise is pending until it has run. *)
Example unsubscribe_pending_while_outstanding :
  let s := stateAfter unsubscribeWhileOutstanding in
  let u := {| waitsFor := [0]; reacted := false |} in
  unsubscriptions s !! 0 = Some u /\
  step config s (UnsubscribeReaction 0) = None /\
  unsubscribeFuture s u = Pending /\
  listening s = true.
Proof. evaluate. Qed.

(** C9 on the code: the reaction of lines 83-86 calls [slice], which
    copies, where the comment on line 82 announces a removal; the entry of
    a settled request stays in [gatherers].  Here the request has settled
    at the maximum wait and the reaction has run. *)
Lemma settled_entry_stays_in_gatherers :
  let es := (timedOut ++ [FinallyReaction 0])%list in
  run config init es = Some (stateAfter es) /\
  deferred (closureAfter es 0) = Fulfilled 0 /\
  finallyRan (closureAfter es 0) = true /\
  gatherers (stateAfter es) = [ {| gatherer_of := 0; promise_of := 0 |} ].
Proof. evaluate. Qed.

(** In every run, [gatherers] holds one entry for each accepted call,
    settled or not. *)
Lemma gatherers_keep_every_call config es s :
  run config init es = Some s ->
  gatherers s = allActive (length (closures s)).
Proof.
  intros Hrun. apply wf_gatherers, (inv_wf config), (reachable_invariant _ _ _ Hrun).
Qed.

End AggregatorClaims.

(** * Properties of [callbackArguments] *)

Module CallbackArgumentsFacts.
Import CallbackArguments.

Lemma append_cons x (a b : string) : String x a ++ b = String x (a ++ b).
Proof. reflexivity. Qed.

Lemma append_assoc (a b c : string) : (a ++ b) ++ c = a ++ (b ++ c).
Proof. induction a as [|x a IH]; [done|]. by rewrite !append_cons, IH. Qed.

Lemma quiet_app a b : quiet (a ++ b) = quiet a && quiet b.
Proof. induction a as [|c a IH]; simpl; [done|]. by rewrite IH, andb_assoc. Qed.

Lemma commas_app a b : commas (a ++ b) = commas a + commas b.
Proof. induction a as [|c a IH]; simpl; [done|]. rewrite IH. lia. Qed.

Lemma beforeBrace_quiet c r :
  quietChar c = true ->
  match r with String d _ => quietChar d = true | EmptyString => True end ->
  beforeBrace (String c r) = false.
Proof.
  unfold quietChar. intros Hc Hr.
  apply andb_true_iff in Hc as [Hb He].
  apply negb_true_iff in Hb, He.
  assert (forall d t, Ascii.eqb d "{" = false -> Ascii.eqb d "=" = false ->
            existsb startsWithBrace (optWord "=>" (String d t)) = false) as Hone.
  { intros d t Hbd Hed. unfold optWord.
    change (stripPrefix "=>" (String d t))
      with (if Ascii.eqb "="%char d then stripPrefix ">" t else None).
    rewrite (Ascii.eqb_sym "="%char d), Hed.
    unfold existsb, startsWithBrace. by rewrite Hbd. }
  unfold beforeBrace, optWhite.
  destruct (isWhite c); simpl; rewrite ?(Hone c r Hb He); simpl; [|done].
  destruct r as [|d t]; [done|].
  apply andb_true_iff in Hr as [Hbd Hed].
  apply negb_true_iff in Hbd, Hed. by rewrite (Hone d t Hbd Hed).
Qed.

Lemma lazyGroup_cons seen c r :
  lazyGroup seen (String c r) =
  if beforeBrace r then Some (seen ++ String c "")
  else lazyGroup (seen ++ String c "") r.
Proof. reflexivity. Qed.

Lemma lazyGroup_quiet tail pre : forall seen,
  pre <> "" -> quiet pre = true ->
  lazyGroup seen (pre ++ " {" ++ tail) = Some (seen ++ pre).
Proof.
  induction pre as [|c pre IH]; intros seen Hne Hp; [done|].
  apply andb_true_iff in Hp as [Hc Hp].
  change (String c pre ++ " {" ++ tail) with (String c (pre ++ " {" ++ tail)).
  rewrite lazyGroup_cons.
  destruct pre as [|d pre].
  - reflexivity.
  - pose proof Hp as Hp0. apply andb_true_iff in Hp0 as [Hd Hpre].
    change (String d pre ++ " {" ++ tail)
      with (String d (pre ++ " {" ++ tail)) at 1.
    rewrite beforeBrace_quiet.
    + rewrite IH by done.
      f_equal. by rewrite append_assoc.
    + done.
    + destruct pre as [|d2 pre2]; [done|].
      by apply andb_true_iff in Hpre as [? _].
Qed.

Lemma toString_split f :
  toString f =
  "function " ++
    ((fn_name f ++ "(" ++ String.concat ", " (fn_params f) ++ ")")
       ++ " {" ++ (fn_body f ++ "}")).
Proof.
  unfold toString. f_equal.
  rewrite !append_assoc. reflexivity.
Qed.

Lemma concat_cons2 sep p q ps :
  String.concat sep (p :: q :: ps) = p ++ sep ++ String.concat sep (q :: ps).
Proof. reflexivity. Qed.

Lemma quiet_concat ps :
  Forall plain ps -> quiet (String.concat ", " ps) = true.
Proof.
  induction 1 as [|p ps [Hp _] Hps IH]; [done|].
  destruct ps as [|q ps]; [done|].
  by rewrite concat_cons2, !quiet_app, Hp, IH.
Qed.

Lemma commas_concat ps :
  Forall plain ps -> commas (String.concat ", " ps) = pred (length ps).
Proof.
  induction 1 as [|p ps [_ Hp] Hps IH]; [done|].
  destruct ps as [|q ps]; [done|].
  rewrite concat_cons2, !commas_app, Hp, IH. simpl. lia.
Qed.

Lemma commas_substring s : forall n m, commas (String.substring n m s) <= commas s.
Proof.
  induction s as [|c s IH]; intros n m; simpl.
  - by destruct n, m.
  - destruct n as [|n].
    + destruct m as [|m]; simpl; [lia|]. specialize (IH 0 m). lia.
    + specialize (IH n m). lia.
Qed.

Lemma split_cons cur c r :
  split cur (String c r) =
  if Ascii.eqb c ","
  then match r with
       | String d t => if isWhite d then cur :: split "" t else cur :: split "" r
       | EmptyString => [cur; ""]
       end
  else split (cur ++ String c EmptyString) r.
Proof. reflexivity. Qed.

Lemma commas_cons c r :
  commas (String c r) = (if Ascii.eqb c "," then 1 else 0) + commas r.
Proof. reflexivity. Qed.

Lemma length_split_le n : forall s cur,
  String.length s <= n -> length (split cur s) = S (commas s).
Proof.
  induction n as [|n IH]; intros s cur Hn.
  - destruct s; [done | simpl in Hn; lia].
  - destruct s as [|c r]; [done|]. simpl in Hn.
    rewrite split_cons, commas_cons. destruct (Ascii.eqb c ",") eqn:Hc.
    + destruct r as [|d t]; [done|]. simpl in Hn.
      destruct (isWhite d) eqn:Hd.
      * rewrite length_cons, IH by lia. rewrite commas_cons.
        assert (Ascii.eqb d "," = false) as ->; [|done].
        destruct (Ascii.eqb_spec d ","); [|done]. subst d. discriminate Hd.
      * rewrite length_cons, IH by (simpl; lia). done.
    + rewrite IH by lia. done.
Qed.

Lemma length_split s cur : length (split cur s) = S (commas s).
Proof. by apply (length_split_le (String.length s)). Qed.

(** For a plain declaration [callbackArguments] finds at most as many
    pieces as there are declared parameters (one piece when there is
    none and the function has a name). *)
Lemma plain_declaration_arguments f :
  plainDecl f ->
  exists args,
    callbackArguments (toString f) = Some args /\
    length args <= Nat.max 1 (length (fn_params f)).
Proof.
  intros [[Hqn Hcn] Hps].
  set (pre := fn_name f ++ "(" ++ String.concat ", " (fn_params f) ++ ")").
  assert (rxExec (toString f) = Some pre) as Hrx.
  { rewrite toString_split. fold pre. unfold rxExec.
    change (optWord "function" ("function " ++ pre ++ " {" ++ fn_body f ++ "}"))
      with ([pre ++ " {" ++ fn_body f ++ "}";
             " " ++ pre ++ " {" ++ fn_body f ++ "}";
             "function " ++ pre ++ " {" ++ fn_body f ++ "}"]).
    unfold firstMatch. rewrite lazyGroup_quiet; [done | |].
    - unfold pre. by destruct (fn_name f).
    - unfold pre. rewrite !quiet_app, Hqn, quiet_concat by done. done. }
  assert (commas pre = pred (length (fn_params f))) as Hcommas.
  { unfold pre. rewrite !commas_app, Hcn, commas_concat by done. simpl. lia. }
  unfold callbackArguments. rewrite Hrx.
  set (args := if parenthesised pre
               then String.substring 1 (String.length pre - 2) pre else pre).
  assert (commas args <= commas pre) as Hle.
  { unfold args. destruct (parenthesised pre); [apply commas_substring | done]. }
  eexists. split; [reflexivity|].
  pose proof (length_split args "") as Hlen.
  destruct (split "" args) as [|a [|b l]] eqn:Hsplit; simpl in *; [lia | |lia].
  destruct (String.eqb a ""); simpl; lia.
Qed.

End CallbackArgumentsFacts.

(** * Properties of the responder *)

Module ResponderFacts.
Import Responder ResponderSpec.

(** *** [Promise.all] *)

Lemma promise_all_fulfilled {V} (ps : list (promise V)) vs :
  promise_all ps = Fulfilled vs -> ps = map Fulfilled vs.
Proof.
  revert vs. induction ps as [|p ps IH]; intros vs H; simpl in H.
  - by injection H as <-.
  - destruct p; [destruct (promise_all ps); discriminate | | discriminate].
    destruct (promise_all ps) as [|vs'|]; try discriminate.
    injection H as <-. simpl. by rewrite (IH vs').
Qed.

Lemma promise_all_rejected {V} (ps : list (promise V)) e :
  promise_all ps = Rejected e -> Rejected e ∈ ps.
Proof.
  induction ps as [|p ps IH]; intros H; simpl in H; [discriminate|].
  destruct p.
  - right. apply IH. by destruct (promise_all ps).
  - right. apply IH. by destruct (promise_all ps).
  - injection H as ->. left.
Qed.

Lemma promise_all_pending {V} (ps : list (promise V)) :
  promise_all ps = Pending ->
  Pending ∈ ps /\ forall e, Rejected e ∉ ps.
Proof.
  induction ps as [|p ps IH]; intros H; simpl in H; [discriminate|].
  destruct p.
  - split; [left|]. intros e He.
    apply elem_of_cons in He as [He | He]; [discriminate|].
    destruct (promise_all ps) eqn:Hps; try discriminate.
    + by destruct (IH eq_refl) as [_ NR]; destruct (NR e).
    + apply promise_all_fulfilled in Hps. subst ps.
      apply list_elem_of_In, in_map_iff in He as (? & ? & _). discriminate.
  - destruct (promise_all ps) eqn:Hps; try discriminate.
    destruct (IH eq_refl) as [HP NR]. split; [by right|].
    intros e He. apply elem_of_cons in He as [He | He]; [discriminate|].
    by destruct (NR e).
  - discriminate.
Qed.

Lemma promise_all_no_rejection {V} (ps : list (promise V)) e :
  (forall e', Rejected e' ∉ ps) -> promise_all ps <> Rejected e.
Proof. intros NR H. apply promise_all_rejected in H. by destruct (NR e). Qed.

(** *** The handler and the inner promise *)

Lemma innerCallback_settled p call :
  Defer.isPending p = false -> innerCallback p call = p.
Proof. intros Hp. unfold innerCallback. destruct (fst call); by destruct p. Qed.

Lemma innerCallbacks_settled calls : forall p,
  Defer.isPending p = false -> foldl innerCallback p calls = p.
Proof.
  induction calls as [|call calls IH]; intros p Hp; simpl; [done|].
  rewrite innerCallback_settled by done. by apply IH.
Qed.

Lemma runHandler_fails handler takes name r e :
  fails handler takes name r e -> runHandler handler takes name r = Rejected e.
Proof.
  unfold fails, runHandler, innerContextOf. destruct takes.
  - destruct (call3 handler _ _) as [calls completion].
    destruct calls as [|[[e'|] d] calls]; [destruct completion| |]; try done.
    + by intros ->.
    + intros ->. simpl.
      assert (innerCallback Defer.defer (Some e, d) = Rejected e) as -> by reflexivity.
      rewrite innerCallbacks_settled by done. by destruct completion.
  - by intros ->.
Qed.


(** *** The events fired at the end of the call *)

Lemma publishFulfilled_below name rps : forall i j,
  j < i ->
  List.filter (fun x => Nat.eqb (fst x) j) (publishFulfilled name i rps) = [].
Proof.
  induction rps as [|[r p] rps IH]; intros i j Hlt; simpl; [done|].
  destruct p; simpl; rewrite ?IH by lia; try done.
  destruct (Nat.eqb_spec i j); [lia | done].
Qed.

Lemma publishFulfilled_at name rps : forall i k,
  List.filter (fun x => Nat.eqb (fst x) (i + k)) (publishFulfilled name i rps) =
  match rps !! k with
  | Some (r, Fulfilled v) => [(i + k, publishReaction name r v)]
  | _ => []
  end.
Proof.
  induction rps as [|[r p] rps IH]; intros i k; simpl; [done|].
  destruct k as [|k]; simpl.
  - rewrite Nat.add_0_r.
    destruct p; simpl; rewrite ?Nat.eqb_refl, ?publishFulfilled_below by lia; done.
  - specialize (IH (S i) k). replace (S i + k) with (i + S k) in IH by lia.
    destruct p; simpl; rewrite ?IH; try done.
    destruct (Nat.eqb_spec i (i + S k)); [lia | done].
Qed.

(** *** The entry point *)

Lemma lookup_map {A B} (f : A -> B) (l : list A) i :
  map f l !! i = f <$> l !! i.
Proof. revert i. induction l as [|a l IH]; intros [|i]; simpl; auto. Qed.

Lemma entry_sound handler takes event context callback ret s0 :
  entry handler takes event context callback = Completed ret s0 ->
  invariant s0 /\ callsOk takes callback s0 /\
  ret = (if takes then Undefined else BatchPromise) /\
  records s0 = EventRecord.extractScatherRecords event isRequest /\
  promises s0 = map (runHandler handler takes (functionName s0)) (records s0).
Proof.
  unfold entry. destruct context as [ctx|]; [|done].
  destruct (ctxFunctionName ctx) as [name|]; [|done].
  destruct (String.eqb name ""); [done|].
  intros H. injection H as Hret Hs. subst ret s0. simpl. split; [|done].
  set (rs := EventRecord.extractScatherRecords event isRequest).
  constructor; simpl.
  - by rewrite length_map.
  - intros i. unfold publishedFor, expectedFor. simpl.
    rewrite (publishFulfilled_at name _ 0 i). simpl.
    destruct (zip rs (map (runHandler handler takes name) rs) !! i)
      as [[r p]|] eqn:Hz.
    + apply lookup_zip_Some in Hz as [-> ->]. by destruct p.
    + apply lookup_zip_None in Hz as [-> | ->]; [|done].
      by destruct (map _ rs !! i) as [[]|].
  - apply promise_all_fulfilled.
  - apply promise_all_rejected.
  - done.
Qed.

Lemma lateCallback_sound takes callback i call s s' :
  lateCallback takes callback i call s = Some s' ->
  invariant s -> callsOk takes callback s ->
  invariant s' /\ callsOk takes callback s' /\
  records s' = records s /\ functionName s' = functionName s /\
  (forall j p, promises s !! j = Some p -> Defer.isPending p = false ->
               promises s' !! j = Some p).
Proof.
  unfold lateCallback. destruct takes; [simpl|done].
  destruct (promises s !! i) as [p|] eqn:Hp; [simpl|done].
  destruct (records s !! i) as [r|] eqn:Hr; [simpl|done].
  intros [= <-] [IL IP IF IR IN] Hcalls. unfold callsOk in *. simpl in *.
  assert (i < length (promises s)) as Hlt by (by eapply lookup_lt_Some).
  destruct (Defer.isPending p) eqn:Hpend; simpl.
  - (* the promise of record [i] settles in this job *)
    destruct p; try discriminate. clear Hpend.
    assert (expectedFor s i = []) as Hnone.
    { unfold expectedFor. by rewrite Hp. }
    assert (Defer.isPending (innerCallback Pending call) = false) as Hnp.
    { unfold innerCallback. by destruct (fst call). }
    rewrite Hnp. simpl.
    assert (forall j q, promises s !! j = Some q -> Defer.isPending q = false ->
              <[i := innerCallback Pending call]> (promises s) !! j = Some q) as Hkeep.
    { intros j q Hj Hq. rewrite list_lookup_insert_ne; [done|].
      intros <-. rewrite Hp in Hj. by injection Hj as <-. }
    split; [|split; [|by repeat split]].
    + constructor; simpl.
      * by rewrite length_insert.
      * intros j. unfold publishedFor, expectedFor in *. simpl.
        rewrite List.filter_app.
        destruct (decide (i = j)) as [<-|Hne].
        -- rewrite IP, Hnone, list_lookup_insert_eq, Hr by done. simpl.
           destruct (innerCallback Pending call); simpl; try done.
           by rewrite Nat.eqb_refl.
        -- rewrite list_lookup_insert_ne by done. rewrite IP.
           destruct (innerCallback Pending call); simpl; rewrite ?app_nil_r; try done.
           destruct (Nat.eqb_spec i j); [done|]. by rewrite app_nil_r.
      * intros vs Hall. unfold allOnSettle in Hall.
        destruct (all s) as [|vs0|e0] eqn:Hs; simpl in Hall.
        -- destruct (innerCallback Pending call) eqn:Hcall; try discriminate.
           destruct (promise_all (<[i:=Fulfilled v]> (promises s))) eqn:Hpa;
             try discriminate.
           injection Hall as <-. by apply promise_all_fulfilled.
        -- specialize (IF _ eq_refl). rewrite IF, lookup_map in Hp.
           by destruct (vs0 !! i).
        -- discriminate.
      * intros e Hall. unfold allOnSettle in Hall.
        destruct (all s) as [|vs0|e0] eqn:Hs; simpl in Hall.
        -- destruct (innerCallback Pending call) eqn:Hcall; try discriminate.
           ++ by destruct (promise_all (<[i:=Fulfilled v]> (promises s))).
           ++ injection Hall as ->. by apply list_elem_of_insert.
        -- discriminate.
        -- injection Hall as ->. specialize (IR _ eq_refl).
           apply list_elem_of_lookup in IR as [j Hj].
           apply list_elem_of_lookup. exists j. by apply Hkeep.
      * intros Hall. unfold allOnSettle in Hall.
        destruct (all s) as [|vs0|e0] eqn:Hs; simpl in Hall; try discriminate.
        destruct (innerCallback Pending call) eqn:Hcall; try discriminate.
        destruct (promise_all (<[i:=Fulfilled v]> (promises s))) eqn:Hpa;
          [done | discriminate |].
        exfalso. destruct (promise_all_pending _ (IN eq_refl)) as [_ NR].
        apply promise_all_rejected in Hpa.
        apply list_elem_of_lookup in Hpa as [j Hj].
        apply list_lookup_insert_Some in Hj as [(_ & ? & _) | [_ Hj]]; [done|].
        apply (NR e). apply list_elem_of_lookup. eauto.
    + rewrite Hcalls. destruct callback; simpl; [|done].
      destruct (all s); simpl; by rewrite ?app_nil_r.
  - (* the promise of record [i] had settled before *)
    rewrite innerCallback_settled by done.
    rewrite list_insert_id by done. rewrite !app_nil_r.
    split; [by constructor|]. split; [|by repeat split].
    rewrite Hcalls. destruct callback; simpl; rewrite ?app_nil_r; [|done].
    destruct (all s); simpl; by rewrite ?app_nil_r.
Qed.

Lemma responder_run_sound takes callback calls : forall s s',
  run takes callback s calls = Some s' ->
  invariant s -> callsOk takes callback s ->
  invariant s' /\ callsOk takes callback s' /\
  records s' = records s /\ functionName s' = functionName s /\
  (forall j p, promises s !! j = Some p -> Defer.isPending p = false ->
               promises s' !! j = Some p).
Proof.
  induction calls as [|[i call] calls IH]; intros s s' Hrun Hinv Hcalls;
    simpl in Hrun.
  - injection Hrun as <-. split; [done|]. split; [done|]. by repeat split.
  - destruct (lateCallback takes callback i call s) as [s1|] eqn:Hlate;
      simpl in Hrun; [|done].
    destruct (lateCallback_sound _ _ _ _ _ _ Hlate Hinv Hcalls)
      as (Hinv1 & Hcalls1 & R1 & F1 & K1).
    destruct (IH _ _ Hrun Hinv1 Hcalls1) as (Hinv' & Hcalls' & R' & F' & K').
    split; [done|]. split; [done|].
    split; [congruence|]. split; [congruence|].
    intros j p Hj Hp. apply K'; [|done]. by apply K1.
Qed.

End ResponderFacts.

(** * The claims about the responder *)

Module ResponderClaims.
Import Responder ResponderSpec ResponderRuns ResponderFacts.



(** How the handlers of the examples are wrapped. *)
Example wrapping :
  response None
    = WrapThrew "Scather.response must be called with a function as its first parameter." /\
  response (Some echo) = EntryPoint echo true /\
  response (Some failOrAnswerLater) = EntryPoint failOrAnswerLater true /\
  response (Some failOrReturn) = EntryPoint failOrReturn false.
Proof. repeat split; vm_compute; reflexivity. Qed.

(** Scenario 5 of the specification, with a third record: the handler
    raises for the second of three matched records; replies are fired for
    the first and the third. *)
Example one_failure_in_three :
  let s := stateOf (entry failOrReturn false batch context false) in
  promises s = [Fulfilled "one"; Rejected "boom"; Fulfilled "three"] /\
  published s =
    [(0, publishReaction "responder" (request "id-1" "one") "one");
     (2, publishReaction "responder" (request "id-3" "three") "three")].
Proof. split; vm_compute; reflexivity. Qed.

(** The same with a handler that takes a continuation and answers in later
    jobs: the second record has failed at once, the third is answered, the
    first reports an error and then, too late, a result.  One reply is
    fired, for the third record. *)
Example one_failure_in_three_later :
  let s0 := stateOf (entry failOrAnswerLater true batch context true) in
  promises s0 = [Pending; Rejected "boom"; Pending] /\
  published s0 = [] /\
  exists s,
    run true true s0
      [(2, (None, "three")); (0, (Some "late", "")); (0, (None, "one"))]
      = Some s /\
    promises s = [Rejected "late"; Rejected "boom"; Fulfilled "three"] /\
    published s =
      [(2, publishReaction "responder" (request "id-3" "three") "three")].
Proof.
  split; [vm_compute; reflexivity|]. split; [vm_compute; reflexivity|].
  eexists. split; [vm_compute; reflexivity|].
  split; vm_compute; reflexivity.
Qed.




(** On success the data handed to the continuation is the array of the
    results, here of one element, where the test [gets response through
    callback] of the repository expects the result itself. *)
Example outer_continuation_gets_results :
  callbackCalls (stateOf (entry echo true [request "id-1" "Hello"] context true))
    = [(None, Some ["Hello"])].
Proof. vm_compute. reflexivity. Qed.

(** The call with the error does not wait for the other records: the
    handler raises for the second record and has not yet answered for the
    other two, and the continuation is called at once, although the comment
    on line 214 calls [Promise.all(promises)] a promise that all records
    have been processed. *)
Lemma outer_continuation_gets_error_while_pending :
  response (Some failOrAnswerLater) = EntryPoint failOrAnswerLater true /\
  exists s,
    entry failOrAnswerLater true batch context true = Completed Undefined s /\
    callbackCalls s = [(Some "boom", None)] /\
    promises s = [Pending; Rejected "boom"; Pending].
Proof.
  split; [vm_compute; reflexivity|].
  eexists. split; [vm_compute; reflexivity|]. split; reflexivity.
Qed.

(** C10 on the code: the handler declares two parameters, the second with
    the default value [[1, 2]].  [callbackArguments] splits the text before
    the first brace at its commas and finds three pieces, so
    [handlerTakesCallback] is true: the entry point returns nothing, calls
    the continuation of the caller (here for a batch without requests), and
    for a request it hands the handler a continuation the handler does not
    know of, so that the value the handler returns is dropped and no reply is
    fired. *)
Lemma default_value_counts_as_parameter :
  length (CallbackArguments.fn_params withDefault) = 2 /\
  source defaulted = "function handler(data, meta = [1, 2]) { return data; }" /\
  CallbackArguments.callbackArguments (source defaulted)
    = Some ["handler(data"; "meta = [1"; "2])"] /\
  response (Some defaulted) = EntryPoint defaulted true /\
  (exists s,
     entry defaulted true [] context true = Completed Undefined s /\
     callbackCalls s = [(None, Some [])]) /\
  (exists s,
     entry defaulted true [request "id-1" "Hello"] context true
       = Completed Undefined s /\
     promises s = [Pending] /\ published s = []).
Proof.
  split; [reflexivity|]. split; [vm_compute; reflexivity|].
  split; [vm_compute; reflexivity|]. split; [vm_compute; reflexivity|].
  split; eexists; (split; [vm_compute; reflexivity|]); try split; reflexivity.
Qed.

(** Where [callbackArguments] finds fewer than three pieces, the entry
    point returns the promise of the batch and never calls a continuation. *)
Lemma direct_entry_returns_batch_promise
    handler args event context callback ret s0 takes calls s :
  CallbackArguments.callbackArguments (source handler) = Some args ->
  length args < 3 ->
  response (Some handler) = EntryPoint handler takes ->
  entry handler takes event context callback = Completed ret s0 ->
  run takes callback s0 calls = Some s ->
  takes = false /\ ret = BatchPromise /\ callbackCalls s = [].
Proof.
  intros Hargs Hlen Hwrap Hentry Hrun.
  unfold response in Hwrap. rewrite Hargs in Hwrap.
  injection Hwrap as Ht.
  assert (Nat.leb 3 (length args) = false) as Htakes by (apply Nat.leb_gt; lia).
  change (Nat.leb 3 (length args) = takes) in Ht.
  rewrite Htakes in Ht. subst takes.
  destruct (entry_sound _ _ _ _ _ _ _ Hentry) as (Hinv0 & Hcalls0 & Hret & _).
  destruct (responder_run_sound _ _ _ _ _ Hrun Hinv0 Hcalls0) as (_ & Hcalls & _).
  done.
Qed.

(** A handler declared with fewer than three plain parameters is wrapped as
    a handler without continuation. *)
Lemma plain_handler_is_direct handler f :
  source handler = CallbackArguments.toString f ->
  CallbackArguments.plainDecl f ->
  length (CallbackArguments.fn_params f) < 3 ->
  response (Some handler) = EntryPoint handler false.
Proof.
  intros Hsrc Hplain Hlen.
  destruct (CallbackArgumentsFacts.plain_declaration_arguments f Hplain)
    as (args & Hargs & Hle).
  unfold response. rewrite Hsrc, Hargs. f_equal.
  apply Nat.leb_gt. lia.
Qed.

End ResponderClaims.

(** * Further properties of the aggregator *)

Module AggregatorMore.
Import Aggregator AggregatorSpec AggregatorRuns AggregatorShape AggregatorFacts.

(** *** [indexOf] and the loop of [gatherer] *)

Lemma indexOf_from_found (l : list string) x : forall i z,
  indexOf_from l x i = z -> z <> (-1)%Z -> (0 <= i)%Z ->
  exists n, z = (i + Z.of_nat n)%Z /\ l !! n = Some x.
Proof.
  induction l as [|y l IH]; intros i z Hz Hne Hi; simpl in Hz; [congruence|].
  destruct (decide (y = x)) as [->|Hyx].
  - exists 0. split; [lia | done].
  - destruct (IH _ _ Hz Hne ltac:(lia)) as (n & -> & Hn).
    exists (S n). split; [lia | done].
Qed.

Lemma indexOf_from_absent (l : list string) x : forall i,
  (0 <= i)%Z -> indexOf_from l x i = (-1)%Z -> x ∉ l.
Proof.
  induction l as [|y l IH]; intros i Hi Hz; simpl in Hz; [apply not_elem_of_nil|].
  destruct (decide (y = x)) as [->|Hyx]; [lia|].
  apply not_elem_of_cons. split; [done|]. eapply IH; [|done]. lia.
Qed.

Lemma elem_of_delete_other {A} (l : list A) i x y :
  l !! i = Some y -> x <> y -> x ∈ l -> x ∈ delete i l.
Proof.
  intros Hi Hxy Hx. apply list_elem_of_lookup in Hx as [j Hj].
  apply list_elem_of_lookup.
  destruct (decide (j < i)) as [Hlt|Hge].
  - exists j. by rewrite list_lookup_delete_lt.
  - destruct j as [|j]; [assert (i = 0) as -> by lia; congruence|].
    assert (i <> S j) by (intros ->; congruence).
    exists j. rewrite list_lookup_delete_ge by lia. done.
Qed.

Lemma storeRecord_missing acc r :
  fst (storeRecord acc r) `sublist_of` fst acc.
Proof.
  unfold storeRecord. simpl. destruct (_ =? _)%Z; [done|]. apply sublist_delete.
Qed.

Lemma storeRecord_dom acc r :
  dom (snd (storeRecord acc r)) =
  if String.eqb (sender r) "__proto__" then dom (snd acc)
  else {[ sender r ]} ∪ dom (snd acc).
Proof.
  unfold storeRecord, sender, assign. simpl.
  destruct (String.eqb _ "__proto__"); [done|]. apply dom_insert_L.
Qed.

Lemma storeRecord_dom_incl acc r :
  dom (snd acc) ⊆ dom (snd (storeRecord acc r)).
Proof.
  rewrite storeRecord_dom. destruct (String.eqb _ "__proto__"); set_solver.
Qed.

Lemma storeRecord_proto acc r :
  "__proto__" ∉ dom (snd acc) -> "__proto__" ∉ dom (snd (storeRecord acc r)).
Proof.
  intros H. rewrite storeRecord_dom.
  destruct (String.eqb_spec (sender r) "__proto__") as [_|Hne]; [done|].
  set_solver.
Qed.

Lemma storeRecord_covered acc r x :
  x <> "__proto__" ->
  x ∈ fst acc \/ x ∈ dom (snd acc) ->
  x ∈ fst (storeRecord acc r) \/ x ∈ dom (snd (storeRecord acc r)).
Proof.
  intros Hproto [Hx | Hx]; [|right; by apply storeRecord_dom_incl].
  destruct (decide (x = sender r)) as [->|Hne].
  { right. rewrite storeRecord_dom.
    destruct (String.eqb_spec (sender r) "__proto__") as [E|_]; [done|].
    set_solver. }
  left. unfold storeRecord. simpl.
  destruct (Z.eqb_spec (indexOf (fst acc) (ScatherFunctionName (attributes r))) (-1))
    as [_|Hfound]; [done|].
  destruct (indexOf_from_found _ _ _ _ eq_refl Hfound ltac:(lia)) as (n & Hn & Hl).
  unfold splice1, indexOf. rewrite Hn.
  replace (Z.to_nat (0 + Z.of_nat n)) with n by lia.
  by eapply elem_of_delete_other.
Qed.

Lemma storeRecords_missing rs : forall acc,
  fst (foldl storeRecord acc rs) `sublist_of` fst acc.
Proof.
  induction rs as [|r rs IH]; intros acc; simpl; [done|].
  etrans; [apply IH | apply storeRecord_missing].
Qed.

Lemma storeRecords_dom rs : forall acc,
  dom (snd acc) ⊆ dom (snd (foldl storeRecord acc rs)).
Proof.
  induction rs as [|r rs IH]; intros acc; simpl; [done|].
  etrans; [|apply IH]. apply storeRecord_dom_incl.
Qed.

Lemma storeRecords_proto rs : forall acc,
  "__proto__" ∉ dom (snd acc) ->
  "__proto__" ∉ dom (snd (foldl storeRecord acc rs)).
Proof.
  induction rs as [|r rs IH]; intros acc H; simpl; [done|].
  by apply IH, storeRecord_proto.
Qed.

Lemma storeRecords_covered rs x : forall acc,
  x <> "__proto__" ->
  x ∈ fst acc \/ x ∈ dom (snd acc) ->
  x ∈ fst (foldl storeRecord acc rs) \/ x ∈ dom (snd (foldl storeRecord acc rs)).
Proof.
  induction rs as [|r rs IH]; intros acc Hproto H; simpl; [done|].
  by apply IH, storeRecord_covered.
Qed.

Lemma lastMessage_snoc key rs r :
  lastMessage key (rs ++ [r]) =
  if String.eqb (sender r) key then Some (message r) else lastMessage key rs.
Proof. unfold lastMessage. by rewrite foldl_snoc. Qed.

Lemma storeRecords_lookup key rs : forall acc,
  key <> "__proto__" ->
  snd (foldl storeRecord acc rs) !! key =
  match lastMessage key rs with
  | Some v => Some v
  | None => snd acc !! key
  end.
Proof.
  induction rs as [|r rs IH] using rev_ind; intros acc Hproto; [done|].
  rewrite foldl_snoc, lastMessage_snoc.
  unfold storeRecord at 1. simpl. fold (sender r). unfold assign.
  destruct (String.eqb_spec (sender r) key) as [->|Hne].
  - destruct (String.eqb_spec key "__proto__") as [E|_]; [done|].
    by rewrite lookup_insert_eq.
  - destruct (String.eqb (sender r) "__proto__"); [by apply IH|].
    rewrite lookup_insert_ne by done. by apply IH.
Qed.

(** *** Shape and monotonicity are kept by every callback *)

Lemma closureShape_heap config s s' k c :
  heap s' = heap s -> closureShape config s k c -> closureShape config s' k c.
Proof.
  intros Hh [H1 H2 H3 H4 H5 H6]. constructor; try done.
  unfold readObject. by rewrite Hh.
Qed.

Lemma shape_same config s s' :
  closures s' = closures s -> heap s' = heap s -> published s' = published s ->
  shape config s -> shape config s'.
Proof.
  intros Hc Hh Hp [S1 S2 S3]. constructor.
  - intros k c Hk. rewrite Hc in Hk. eapply closureShape_heap; eauto.
  - by rewrite Hp, Hc.
  - intros k c Hk. rewrite Hc in Hk. rewrite Hp. eauto.
Qed.

Lemma keeps_refl s : keeps s s.
Proof. intros k c Hk. exists c. by repeat split. Qed.

Lemma keeps_same s s' :
  closures s' = closures s -> heap s' = heap s -> keeps s s'.
Proof.
  intros Hc Hh k c Hk. exists c. rewrite Hc. unfold readObject. rewrite Hh.
  by repeat split.
Qed.

Lemma keeps_trans s1 s2 s3 : keeps s1 s2 -> keeps s2 s3 -> keeps s1 s3.
Proof.
  intros K1 K2 k c Hk.
  destruct (K1 k c Hk) as (c2 & Hk2 & M1 & D1 & R1 & F1).
  destruct (K2 k c2 Hk2) as (c3 & Hk3 & M2 & D2 & R2 & F2).
  exists c3. split; [done|]. split; [by etrans|]. split; [by etrans|]. auto.
Qed.

Lemma length_zero_nil {A} (l : list A) : Nat.eqb (length l) 0 = true -> l = [].
Proof. by destruct l. Qed.

Lemma gatherer_shape config s j event :
  wf s -> shape config s -> shape config (gatherer j event s).
Proof.
  intros [Hh Hr Hg] [S1 S2 S3].
  gatherer_cases s j c Hc Hp; try by constructor.
  assert (j < length (heap s)) as Hlt.
  { rewrite Hh. by eapply lookup_lt_Some. }
  rewrite (Hr _ _ Hc).
  constructor; simpl; [|by rewrite length_insert|].
  - intros k c' Hk.
    apply list_lookup_insert_Some in Hk as [(<- & <- & _) | [Hne Hk]].
    + destruct (S1 _ _ Hc) as [A M C E F G].
      assert (forall s', readObject s' j = default ∅ (heap s' !! j)) as Hread by done.
      constructor; simpl; try done.
      * etrans; [apply storeRecords_missing | done].
      * intros x Hx Hproto. unfold readObject. simpl.
        rewrite list_lookup_insert_eq by done. simpl.
        apply storeRecords_covered; [done|]. simpl. by apply C.
      * destruct (_ && _) eqn:Hres; [|congruence].
        intros _. right. apply andb_true_iff in Hres as [Hlen Hmin].
        split; [by apply length_zero_nil | done].
      * intros Hmin Hnil. rewrite Hnil, Hmin. simpl. by destruct (deferred c).
    + specialize (S1 _ _ Hk). destruct S1 as [A M C E F G].
      constructor; try done.
      intros x Hx Hproto. unfold readObject. simpl.
      rewrite list_lookup_insert_ne by done. by apply C.
  - intros k c' Hk.
    apply list_lookup_insert_Some in Hk as [(<- & <- & _) | [Hne Hk]]; simpl; eauto.
Qed.

Lemma gatherer_keeps s j event : wf s -> keeps s (gatherer j event s).
Proof.
  intros [Hh Hr Hg].
  gatherer_cases s j c Hc Hp; try apply keeps_refl.
  assert (j < length (heap s)) as Hlt.
  { rewrite Hh. by eapply lookup_lt_Some. }
  rewrite (Hr _ _ Hc).
  intros k c0 Hk. simpl. destruct (decide (j = k)) as [<-|Hne].
  - assert (c0 = c) as -> by congruence.
    eexists. split; [by apply list_lookup_insert_eq; eapply lookup_lt_Some|].
    simpl. split; [apply storeRecords_missing|].
    split; [|done]. unfold readObject at 2. simpl.
    rewrite list_lookup_insert_eq by done. simpl.
    apply (storeRecords_dom _ (missing c, readObject s j)).
  - exists c0. rewrite list_lookup_insert_ne by done.
    split; [done|]. split; [done|]. split; [|done].
    unfold readObject. simpl. by rewrite list_lookup_insert_ne.
Qed.

Lemma runGatherers_more config event s :
  wf s -> shape config s ->
  shape config (runGatherers event s) /\ keeps s (runGatherers event s).
Proof.
  intros Hwf Hshape.
  assert (wf (runGatherers event s) /\ shape config (runGatherers event s) /\
          keeps s (runGatherers event s)) as (_ & ? & ?); [|done].
  apply (runGatherers_ind
           (fun s' => wf s' /\ shape config s' /\ keeps s s')).
  - intros s1 j (W & S & K).
    split; [by apply gatherer_wf|]. split; [by apply gatherer_shape|].
    eapply keeps_trans; [done | by apply gatherer_keeps].
  - split; [done|]. split; [done | apply keeps_refl].
Qed.

Lemma with_closure_more config s k c c' :
  shape config s ->
  closures s !! k = Some c ->
  closureShape config s k c' ->
  attrs c' = attrs c ->
  missing c' = missing c ->
  (minTimeoutReached c = true -> minTimeoutReached c' = true) ->
  (fired (maxTimer c) = true -> fired (maxTimer c') = true) ->
  shape config (with_closure k c' s) /\ keeps s (with_closure k c' s).
Proof.
  intros [S1 S2 S3] Hk Hc' Hattrs Hmissing Hmin Hmax.
  assert (k < length (closures s)) as Hlt by (by eapply lookup_lt_Some).
  split.
  - constructor; simpl; [|by rewrite length_insert|].
    + intros j c0 Hj.
      apply list_lookup_insert_Some in Hj as [(<- & <- & _) | [_ Hj]].
      * by apply (closureShape_heap config s).
      * by apply (closureShape_heap config s), S1.
    + intros j c0 Hj.
      apply list_lookup_insert_Some in Hj as [(<- & <- & _) | [_ Hj]]; [|eauto].
      rewrite Hattrs. eauto.
  - intros j c0 Hj. simpl. destruct (decide (k = j)) as [<-|Hne].
    + assert (c0 = c) as -> by congruence.
      exists c'. rewrite list_lookup_insert_eq by done.
      split; [done|]. split; [by rewrite Hmissing|]. by repeat split.
    + exists c0. rewrite list_lookup_insert_ne by done. by repeat split.
Qed.

Lemma minTimeoutCallback_shape config s k c :
  closureShape config s k c -> closureShape config s k (minTimeoutCallback c).
Proof.
  intros [A M C E F G]. constructor; simpl; try done.
  - destruct (Nat.eqb (length (missing c)) 0 && Defer.isPending (deferred c))
      eqn:Hres.
    + intros _. right. apply andb_true_iff in Hres as [Hlen _].
      split; [by apply length_zero_nil | done].
    + intros Hp. destruct (E Hp) as [? | [? _]]; [by left | by right].
  - intros _ Hnil. rewrite Hnil. simpl. by destruct (deferred c).
Qed.

Lemma maxTimeoutCallback_shape config s k c :
  closureShape config s k c -> closureShape config s k (maxTimeoutCallback c).
Proof.
  intros [A M C E F G]. constructor; simpl; try done.
  - intros _. by left.
  - intros _ _. by destruct (deferred c).
Qed.

Lemma markFinally_shape config s k c :
  closureShape config s k c -> closureShape config s k (markFinally c).
Proof. intros [A M C E F G]. by constructor. Qed.

Lemma aggregator_more config data callback uuid s :
  wf s -> shape config s ->
  let s' := fst (aggregator config data callback uuid s) in
  shape config s' /\ keeps s s'.
Proof.
  intros [Hh Hr Hg] [S1 S2 S3]. simpl. unfold aggregator.
  destruct (subscribed s); simpl; [|split; [by constructor | apply keeps_refl]].
  assert (forall k, k < length (closures s) ->
            readObject
              {| now := now s; subscribed := true;
                 gatherers := gatherers s ++
                   [ {| gatherer_of := length (closures s);
                        promise_of := length (closures s) |} ];
                 closures := closures s ++
                   [ {| attrs := requestAttributes config uuid;
                        deferred := Defer.defer; missing := expects config;
                        result := length (heap s); minTimeoutReached := false;
                        minTimer := setTimeout (now s) (minWait config);
                        maxTimer := setTimeout (now s) (maxWait config);
                        finallyRan := false; invokedAt := now s |} ];
                 heap := heap s ++ [∅]; listening := listening s;
                 published := published s ++
                   [EventRecord.createPublishEvent (topicArn config) data
                      (requestAttributes config uuid)];
                 unsubscriptions := unsubscriptions s |} k
            = readObject s k) as Hread.
  { intros k Hk. unfold readObject. simpl. rewrite lookup_app_l by lia. done. }
  split.
  - constructor; simpl.
    + intros k c Hk. apply lookup_app_Some in Hk as [Hk | [Hge Hk]].
      * destruct (S1 _ _ Hk) as [A M C E F G]. constructor; try done.
        intros x Hx. fold (requestAttributes config uuid).
        rewrite Hread by (by eapply lookup_lt_Some). by apply C.
      * apply list_lookup_singleton_Some in Hk as [Hz <-].
        constructor; simpl; try done. intros x Hx. by left.
    + rewrite !length_app. simpl. lia.
    + intros k c Hk. apply lookup_app_Some in Hk as [Hk | [Hge Hk]].
      * destruct (S3 _ _ Hk) as [d Hd]. exists d. by apply lookup_app_l_Some.
      * apply list_lookup_singleton_Some in Hk as [Hz <-]. simpl.
        exists data. apply list_lookup_middle. lia.
  - intros k c Hk. exists c. split; [by apply lookup_app_l_Some|].
    split; [done|]. split; [|done].
    fold (requestAttributes config uuid).
    rewrite Hread by (by eapply lookup_lt_Some). done.
Qed.

Lemma step_more config s e s' :
  invariant config s -> shape config s -> step config s e = Some s' ->
  shape config s' /\ keeps s s'.
Proof.
  intros Hinv Hshape Hstep. pose proof (inv_wf _ _ Hinv) as Hwf.
  destruct e; simpl in Hstep.
  - injection Hstep as <-. by apply aggregator_more.
  - injection Hstep as <-. split; [by apply (shape_same config s) | by apply keeps_same].
  - destruct (closures s !! k) as [c|] eqn:Hk; simpl in Hstep; [|done].
    destruct (_ && _) eqn:Hgo; [|done]. injection Hstep as <-.
    eapply with_closure_more; try done.
    apply minTimeoutCallback_shape. by apply (shape_closures _ _ Hshape).
  - destruct (closures s !! k) as [c|] eqn:Hk; simpl in Hstep; [|done].
    destruct (_ && _) eqn:Hgo; [|done]. injection Hstep as <-.
    eapply with_closure_more; try done.
    apply maxTimeoutCallback_shape. by apply (shape_closures _ _ Hshape).
  - injection Hstep as <-. destruct (listening s).
    + by apply runGatherers_more.
    + split; [done | apply keeps_refl].
  - destruct (closures s !! k) as [c|] eqn:Hk; simpl in Hstep; [|done].
    destruct (_ && _) eqn:Hgo; [|done]. injection Hstep as <-.
    unfold finallyCallback.
    eapply with_closure_more; try done.
    apply markFinally_shape. by apply (shape_closures _ _ Hshape).
  - injection Hstep as <-. split; [by apply (shape_same config s) | by apply keeps_same].
  - destruct (unsubscriptions s !! n) as [u|] eqn:Hn; simpl in Hstep; [|done].
    destruct (unsubscribeAll s u); try done.
    destruct (reacted u); [done|]. injection Hstep as <-.
    split; [by apply (shape_same config s) | by apply keeps_same].
Qed.

Lemma init_shape config : shape config init.
Proof. by constructor. Qed.

Lemma run_more config es : forall s s',
  invariant config s -> shape config s -> run config s es = Some s' ->
  shape config s' /\ keeps s s'.
Proof.
  induction es as [|e es IH]; intros s s' Hinv Hshape Hrun; simpl in Hrun.
  - injection Hrun as <-. split; [done | apply keeps_refl].
  - destruct (step config s e) as [s1|] eqn:Hstep; simpl in Hrun; [|done].
    destruct (step_sound _ _ _ _ Hinv Hstep) as (Hinv1 & _ & _).
    destruct (step_more _ _ _ _ Hinv Hshape Hstep) as [Hshape1 K1].
    destruct (IH _ _ Hinv1 Hshape1 Hrun) as [Hshape' K'].
    split; [done | by eapply keeps_trans].
Qed.

Lemma reachable_shape config es s :
  run config init es = Some s -> shape config s.
Proof.
  intros Hrun.
  by eapply run_more; [apply init_invariant | apply init_shape | ].
Qed.

(** *** The key [__proto__] *)

Lemma plainKeys_read s k : plainKeys s -> "__proto__" ∉ dom (readObject s k).
Proof.
  intros H. unfold readObject.
  destruct (heap s !! k) as [o|] eqn:Hk; simpl; [|set_solver].
  by apply (proj1 (Forall_lookup _ _) H k o).
Qed.

Lemma gatherer_plain s j event : plainKeys s -> plainKeys (gatherer j event s).
Proof.
  intros H. gatherer_cases s j c Hc Hp; try done.
  unfold plainKeys. simpl. apply Forall_insert; [done|].
  apply storeRecords_proto. simpl. by apply plainKeys_read.
Qed.

Lemma step_plain config s e s' :
  plainKeys s -> step config s e = Some s' -> plainKeys s'.
Proof.
  intros H Hstep. destruct e; simpl in Hstep.
  - injection Hstep as <-. unfold aggregator.
    destruct (negb (subscribed s)); [done|]. unfold plainKeys. simpl.
    apply Forall_app. split; [done|]. apply Forall_singleton. set_solver.
  - by injection Hstep as <-.
  - destruct (closures s !! k) as [c|]; simpl in Hstep; [|done].
    destruct (_ && _); [|done]. by injection Hstep as <-.
  - destruct (closures s !! k) as [c|]; simpl in Hstep; [|done].
    destruct (_ && _); [|done]. by injection Hstep as <-.
  - injection Hstep as <-. destruct (listening s); [|done].
    apply (runGatherers_ind plainKeys); [|done].
    intros s1 j H1. by apply gatherer_plain.
  - destruct (closures s !! k) as [c|]; simpl in Hstep; [|done].
    destruct (_ && _); [|done]. by injection Hstep as <-.
  - by injection Hstep as <-.
  - destruct (unsubscriptions s !! n) as [u|]; simpl in Hstep; [|done].
    destruct (unsubscribeAll s u); try done.
    destruct (reacted u); [done|]. by injection Hstep as <-.
Qed.

Lemma run_plain config es : forall s s',
  plainKeys s -> run config s es = Some s' -> plainKeys s'.
Proof.
  induction es as [|e es IH]; intros s s' H Hrun; simpl in Hrun.
  - by injection Hrun as <-.
  - destruct (step config s e) as [s1|] eqn:Hstep; simpl in Hrun; [|done].
    eapply IH; [|done]. by eapply step_plain.
Qed.

Lemma reachable_plain config es s :
  run config init es = Some s -> plainKeys s.
Proof. apply run_plain. by constructor. Qed.

(** *** Gatherers that share the reply topic *)

Lemma gatherer_other s j k event :
  wf s -> j <> k ->
  closures (gatherer j event s) !! k = closures s !! k /\
  heap (gatherer j event s) !! k = heap s !! k.
Proof.
  intros [Hh Hr Hg] Hne. gatherer_cases s j c Hc Hp; try done.
  rewrite (Hr _ _ Hc). by rewrite !list_lookup_insert_ne.
Qed.

Lemma gatherer_local s1 s2 k event :
  wf s1 -> wf s2 ->
  closures s1 !! k = closures s2 !! k -> heap s1 !! k = heap s2 !! k ->
  closures (gatherer k event s1) !! k = closures (gatherer k event s2) !! k /\
  heap (gatherer k event s1) !! k = heap (gatherer k event s2) !! k.
Proof.
  intros [Hh1 Hr1 _] [Hh2 Hr2 _] Hc Hheap. unfold gatherer.
  destruct (closures s1 !! k) as [c|] eqn:Hc1;
    destruct (closures s2 !! k) as [c2|] eqn:Hc2; try done;
    [|by rewrite Hc1, Hc2].
  injection Hc as <-.
  destruct (Defer.isPending (deferred c)); simpl; [|by rewrite Hc1, Hc2].
  assert (k < length (closures s1)) by (by eapply lookup_lt_Some).
  assert (k < length (closures s2)) by (by eapply lookup_lt_Some).
  rewrite (Hr1 _ _ Hc1).
  assert (readObject s1 k = readObject s2 k) as ->.
  { unfold readObject. by rewrite Hheap. }
  split.
  - rewrite !list_lookup_insert_eq by lia. done.
  - rewrite !list_lookup_insert_eq by lia. done.
Qed.

Lemma foldl_gatherer_focus event k (l : list Active) : forall s,
  wf s -> NoDup (map gatherer_of l) ->
  let s' := foldl (fun s item => gatherer (gatherer_of item) event s) s l in
  wf s' /\
  (k ∈ map gatherer_of l ->
   closures s' !! k = closures (gatherer k event s) !! k /\
   heap s' !! k = heap (gatherer k event s) !! k) /\
  (k ∉ map gatherer_of l ->
   closures s' !! k = closures s !! k /\ heap s' !! k = heap s !! k).
Proof.
  induction l as [|a l IH]; intros s Hwf Hnd.
  - split; [done|]. split; [|done]. intros Hin. by apply elem_of_nil in Hin.
  - change (map gatherer_of (a :: l)) with (gatherer_of a :: map gatherer_of l) in *.
    apply NoDup_cons in Hnd as [Hnotin Hnd].
    pose proof (gatherer_wf s (gatherer_of a) event Hwf) as Hwf1.
    destruct (IH _ Hwf1 Hnd) as (Hwf' & Hin' & Hout').
    change (foldl (fun s item => gatherer (gatherer_of item) event s) s (a :: l))
      with (foldl (fun s item => gatherer (gatherer_of item) event s)
              (gatherer (gatherer_of a) event s) l).
    split; [done|]. split.
    + intros Hin. destruct (decide (gatherer_of a = k)) as [Heq|Hne].
      * rewrite Heq in *. by apply Hout'.
      * apply elem_of_cons in Hin as [?|Hin]; [congruence|].
        destruct (gatherer_other s _ k event Hwf Hne) as [Hc Hh].
        destruct (Hin' Hin) as [-> ->]. by apply gatherer_local.
    + intros Hnin. apply not_elem_of_cons in Hnin as [Hne Hnin].
      destruct (Hout' Hnin) as [-> ->]. by apply gatherer_other.
Qed.

Lemma allActive_gatherers n : map gatherer_of (allActive n) = seq 0 n.
Proof. unfold allActive. rewrite map_map. simpl. apply map_id. Qed.

Lemma runGatherers_focus s k event :
  wf s ->
  closures (runGatherers event s) !! k = closures (gatherer k event s) !! k /\
  heap (runGatherers event s) !! k = heap (gatherer k event s) !! k.
Proof.
  intros Hwf. unfold runGatherers.
  destruct (foldl_gatherer_focus event k (gatherers s) s Hwf) as (_ & Hin' & Hout').
  { rewrite (wf_gatherers _ Hwf), allActive_gatherers. apply NoDup_seq. }
  destruct (decide (k ∈ map gatherer_of (gatherers s))) as [Hin|Hnin]; [by apply Hin'|].
  destruct (Hout' Hnin) as [-> ->].
  rewrite (wf_gatherers _ Hwf), allActive_gatherers in Hnin.
  assert (closures s !! k = None) as Hnone.
  { apply lookup_ge_None. destruct (decide (k < length (closures s))); [|lia].
    exfalso. apply Hnin, elem_of_seq. lia. }
  by rewrite (gatherer_unknown _ _ _ Hnone).
Qed.

(** *** A delivery seen from one call *)

Lemma filter_none {A} (f : A -> bool) (l : list A) :
  (forall x, x ∈ l -> f x = false) -> List.filter f l = [].
Proof.
  induction l as [|a l IH]; intros H; simpl; [done|].
  rewrite (H a) by left. apply IH. intros x Hx. apply H. by right.
Qed.

Lemma deliver_pending config es s k c event s' :
  run config init es = Some s ->
  closures s !! k = Some c ->
  Defer.isPending (deferred c) = true ->
  listening s = true ->
  step config s (Deliver event) = Some s' ->
  let acc := foldl storeRecord (missing c, readObject s k) (relevant c event) in
  exists c',
    closures s' !! k = Some c' /\
    missing c' = fst acc /\
    readObject s' k = snd acc /\
    attrs c' = attrs c /\
    minTimeoutReached c' = minTimeoutReached c.
Proof.
  intros Hrun Hk Hp Hl Hstep acc. simpl in Hstep. rewrite Hl in Hstep.
  injection Hstep as <-.
  pose proof (inv_wf _ _ (reachable_invariant _ _ _ Hrun)) as Hwf.
  destruct (runGatherers_focus s k event Hwf) as [Hc Hh].
  assert (k < length (closures s)) as Hlt by (by eapply lookup_lt_Some).
  unfold gatherer in Hc, Hh. rewrite Hk, Hp in Hc, Hh. simpl in Hc, Hh.
  rewrite (wf_result _ Hwf _ _ Hk) in Hc, Hh.
  rewrite list_lookup_insert_eq in Hc by done.
  rewrite list_lookup_insert_eq in Hh by (rewrite (wf_heap _ Hwf); lia).
  eexists. split; [exact Hc|]. simpl. split; [done|]. split; [|done].
  unfold readObject at 1. by rewrite Hh.
Qed.

Lemma storeRecord_NoDup m o r x :
  NoDup m ->
  x ∈ fst (storeRecord (m, o) r) <-> x ∈ m /\ x <> sender r.
Proof.
  intros Hnd. unfold storeRecord, sender. simpl.
  destruct (Z.eqb_spec (indexOf m (ScatherFunctionName (attributes r))) (-1))
    as [Habs|Hfound].
  - apply indexOf_from_absent in Habs; [|lia]. split; [|tauto].
    intros Hx. split; [done|]. by intros ->.
  - destruct (indexOf_from_found _ _ _ _ eq_refl Hfound ltac:(lia)) as (n & Hn & Hl).
    unfold splice1, indexOf. rewrite Hn.
    replace (Z.to_nat (0 + Z.of_nat n)) with n by lia.
    split.
    + intros Hx. split; [by eapply list_elem_of_delete_inv|].
      intros ->. rewrite <- (take_drop_middle _ _ _ Hl) in Hnd.
      apply NoDup_app in Hnd as (_ & Hdisj & Hnd2).
      apply NoDup_cons in Hnd2 as [Hnot _].
      rewrite delete_take_drop in Hx. apply elem_of_app in Hx as [Hx | Hx].
      * apply (Hdisj _ Hx). left.
      * done.
    + intros [Hx Hne]. by eapply elem_of_delete_other.
Qed.

Lemma storeRecords_NoDup rs x : forall m o,
  NoDup m ->
  x ∈ fst (foldl storeRecord (m, o) rs) <->
  x ∈ m /\ forall r, r ∈ rs -> sender r <> x.
Proof.
  induction rs as [|r rs IH]; intros m o Hnd; simpl.
  - split; [|tauto]. intros Hx. split; [done|]. intros r Hr.
    by apply elem_of_nil in Hr.
  - destruct (storeRecord (m, o) r) as [m1 o1] eqn:Hstore.
    assert (m1 = fst (storeRecord (m, o) r)) as Hm1 by (by rewrite Hstore).
    assert (NoDup m1) as Hnd1.
    { rewrite Hm1. eapply sublist_NoDup; [done|].
      apply (storeRecord_missing (m, o)). }
    rewrite (IH m1 o1 Hnd1), Hm1, storeRecord_NoDup by done.
    split.
    + intros [[Hx Hne] Hrs]. split; [done|]. intros r' Hr'.
      apply elem_of_cons in Hr' as [-> | Hr']; [congruence | by apply Hrs].
    + intros [Hx Hrs]. split; [split; [done|]|].
      * intros ->. by apply (Hrs r); [left|].
      * intros r' Hr'. apply Hrs. by right.
Qed.

Lemma list_fmap_insert_same {A B} (f : A -> B) (l : list A) k x y :
  l !! k = Some x -> f y = f x -> f <$> <[k := y]> l = f <$> l.
Proof.
  intros Hk Hf. rewrite list_fmap_insert, Hf.
  apply list_insert_id. by rewrite list_lookup_fmap, Hk.
Qed.

Lemma step_after_teardown config s e s' :
  invariant config s -> subscribed s = false ->
  step config s e = Some s' ->
  subscribed s' = false /\ heap s' = heap s /\
  missing <$> closures s' = missing <$> closures s /\
  published s' = published s.
Proof.
  intros Hinv Hsub Hstep. destruct e; simpl in Hstep.
  - unfold aggregator in Hstep. rewrite Hsub in Hstep. simpl in Hstep.
    by injection Hstep as <-.
  - by injection Hstep as <-.
  - destruct (closures s !! k) as [c|] eqn:Hk; simpl in Hstep; [|done].
    destruct (_ && _); [|done]. injection Hstep as <-. simpl.
    split; [done|]. split; [done|]. split; [|done].
    by eapply list_fmap_insert_same.
  - destruct (closures s !! k) as [c|] eqn:Hk; simpl in Hstep; [|done].
    destruct (_ && _); [|done]. injection Hstep as <-. simpl.
    split; [done|]. split; [done|]. split; [|done].
    by eapply list_fmap_insert_same.
  - rewrite (inv_listening _ _ Hinv), Hsub in Hstep. by injection Hstep as <-.
  - destruct (closures s !! k) as [c|] eqn:Hk; simpl in Hstep; [|done].
    destruct (_ && _); [|done]. injection Hstep as <-. simpl.
    split; [done|]. split; [done|]. split; [|done].
    by eapply list_fmap_insert_same.
  - by injection Hstep as <-.
  - destruct (unsubscriptions s !! n) as [u|] eqn:Hn; simpl in Hstep; [|done].
    destruct (unsubscribeAll s u); try done.
    destruct (reacted u); [done|]. by injection Hstep as <-.
Qed.

End AggregatorMore.

(** * Further theorems about the aggregator *)

Module AggregatorExtras.
Import Aggregator AggregatorSpec AggregatorRuns AggregatorShape MoreRuns.
Import AggregatorFacts AggregatorMore.

(** X1.  Over any continuation of any run a call keeps what it has
    gathered: its [missing] only loses elements (and never holds more than
    [expects] in its order), and no key leaves its object [result]. *)
Theorem gathered_is_kept config es s es' s' k c :
  run config init es = Some s ->
  run config s es' = Some s' ->
  closures s !! k = Some c ->
  exists c',
    closures s' !! k = Some c' /\
    missing c' `sublist_of` missing c /\
    missing c `sublist_of` expects config /\
    dom (readObject s (result c)) ⊆ dom (readObject s' (result c')).
Proof.
  intros Hrun Hrun' Hk.
  pose proof (reachable_invariant _ _ _ Hrun) as Hinv.
  pose proof (reachable_shape _ _ _ Hrun) as Hshape.
  destruct (run_more _ _ _ _ Hinv Hshape Hrun') as [_ K].
  destruct (run_sound _ _ _ _ Hinv Hrun') as [Hinv' _].
  destruct (K k c Hk) as (c' & Hk' & M & D & _).
  exists c'. split; [done|]. split; [done|].
  split; [apply (shape_missing _ _ _ _ (shape_closures _ _ Hshape _ _ Hk))|].
  by rewrite (wf_result _ (inv_wf _ _ Hinv) _ _ Hk),
             (wf_result _ (inv_wf _ _ Hinv') _ _ Hk').
Qed.

Lemma gathered_is_kept_witness :
  exists c',
    closures (stateAfter timedOut) !! 0 = Some c' /\
    missing c' `sublist_of` missing (closureAfter oneRequest 0) /\
    missing (closureAfter oneRequest 0) `sublist_of` expects config /\
    dom (readObject (stateAfter oneRequest) (result (closureAfter oneRequest 0)))
      ⊆ dom (readObject (stateAfter timedOut) (result c')).
Proof.
  apply (gathered_is_kept config oneRequest (stateAfter oneRequest)
           (tail timedOut) (stateAfter timedOut) 0 (closureAfter oneRequest 0)).
  - vm_compute. reflexivity.
  - vm_compute. reflexivity.
  - vm_compute. reflexivity.
Defined.

(** X2.  At every point of a run each expected responder of a call,
    unless its name is [__proto__], is still in [missing] or has its key in
    the object [result].  (A reply from a responder named [__proto__] takes
    the name out of [missing] and leaves no key: see
    [reply_from_proto_leaves_no_key].) *)
Theorem expected_sender_missing_or_stored config es s k c x :
  run config init es = Some s ->
  closures s !! k = Some c ->
  x ∈ expects config ->
  x <> "__proto__" ->
  x ∈ missing c \/ x ∈ dom (readObject s (result c)).
Proof.
  intros Hrun Hk Hx Hproto.
  pose proof (reachable_invariant _ _ _ Hrun) as Hinv.
  rewrite (wf_result _ (inv_wf _ _ Hinv) _ _ Hk).
  by apply (shape_covered _ _ _ _
              (shape_closures _ _ (reachable_shape _ _ _ Hrun) _ _ Hk)).
Qed.

Lemma expected_sender_missing_or_stored_witness :
  "A" ∈ missing (closureAfter timedOut 0) \/
  "A" ∈ dom (readObject (stateAfter timedOut) (result (closureAfter timedOut 0))).
Proof.
  apply (expected_sender_missing_or_stored config timedOut
           (stateAfter timedOut) 0 (closureAfter timedOut 0) "A").
  - vm_compute. reflexivity.
  - vm_compute. reflexivity.
  - left.
  - discriminate.
Defined.

(** The expected responder is named [__proto__] and replies: its name
    leaves [missing], the object gets no key, and the request is fulfilled
    at the minimum wait with the empty object. *)
Example reply_from_proto_leaves_no_key :
  exists s c,
    run protoConfig init protoReplies = Some s /\
    closures s !! 0 = Some c /\
    missing c = [] /\
    readObject s (result c) = ∅ /\
    deferred c = Fulfilled (result c) /\
    now s = 50.
Proof.
  eexists. eexists. split; [vm_compute; reflexivity|].
  split; [vm_compute; reflexivity|]. repeat split; vm_compute; reflexivity.
Qed.

(** X3.  A promise that has settled although the second timer has not run
    was resolved with a complete result: [missing] is empty, the first timer
    has run, and every expected responder, unless its name is [__proto__],
    has its key in the object. *)
Theorem early_settlement_is_complete config es s k c :
  run config init es = Some s ->
  closures s !! k = Some c ->
  Defer.isPending (deferred c) = false ->
  fired (maxTimer c) = false ->
  missing c = [] /\ minTimeoutReached c = true /\
  forall x, x ∈ expects config -> x <> "__proto__" ->
    x ∈ dom (readObject s (result c)).
Proof.
  intros Hrun Hk Hp Hmax.
  pose proof (reachable_invariant _ _ _ Hrun) as Hinv.
  pose proof (shape_closures _ _ (reachable_shape _ _ _ Hrun) _ _ Hk)
    as [A M C E F G].
  destruct (E Hp) as [Hf | [Hnil Hmin]]; [congruence|].
  split; [done|]. split; [done|]. intros x Hx Hproto.
  rewrite (wf_result _ (inv_wf _ _ Hinv) _ _ Hk).
  destruct (C x Hx Hproto) as [Hin | Hin]; [|done].
  rewrite Hnil in Hin. by apply elem_of_nil in Hin.
Qed.

Lemma early_settlement_is_complete_witness :
  missing (closureAfter resolvedAtMinWait 0) = [] /\
  minTimeoutReached (closureAfter resolvedAtMinWait 0) = true /\
  forall x, x ∈ expects config -> x <> "__proto__" ->
    x ∈ dom (readObject (stateAfter resolvedAtMinWait)
               (result (closureAfter resolvedAtMinWait 0))).
Proof.
  apply (early_settlement_is_complete config resolvedAtMinWait
           (stateAfter resolvedAtMinWait) 0 (closureAfter resolvedAtMinWait 0)).
  - vm_compute. reflexivity.
  - vm_compute. reflexivity.
  - vm_compute. reflexivity.
  - vm_compute. reflexivity.
Defined.

(** X4.  A call never waits for the maximum wait once its replies are in:
    when the first timer has run and [missing] is empty, in particular when
    nothing is expected, the promise is fulfilled with the object
    [result]. *)
Theorem complete_request_is_settled config es s k c :
  run config init es = Some s ->
  closures s !! k = Some c ->
  fired (minTimer c) = true ->
  missing c = [] \/ expects config = [] ->
  deferred c = Fulfilled (result c).
Proof.
  intros Hrun Hk Hfired Hcomplete.
  pose proof (reachable_invariant _ _ _ Hrun) as Hinv.
  pose proof (shape_closures _ _ (reachable_shape _ _ _ Hrun) _ _ Hk)
    as [A M C E F G].
  assert (missing c = []) as Hnil.
  { destruct Hcomplete as [? | Hexp]; [done|]. rewrite Hexp in M.
    by apply sublist_nil_r in M. }
  rewrite G in Hfired. specialize (F Hfired Hnil).
  destruct (ok_value _ _ _ (inv_closures _ _ Hinv _ _ Hk)) as [Hd | Hd]; [|done].
  by rewrite Hd in F.
Qed.

Lemma complete_request_is_settled_witness :
  deferred (closureAfter resolvedAtMinWait 0)
    = Fulfilled (result (closureAfter resolvedAtMinWait 0)).
Proof.
  apply (complete_request_is_settled config resolvedAtMinWait
           (stateAfter resolvedAtMinWait) 0 (closureAfter resolvedAtMinWait 0)).
  - vm_compute. reflexivity.
  - vm_compute. reflexivity.
  - vm_compute. reflexivity.
  - left. vm_compute. reflexivity.
Defined.

(** X5.  When the minimum wait of a pending call is over and [missing] is
    empty, the first timer can run and its callback fulfils the promise with
    the object [result], which it leaves as it is. *)
Theorem minWait_fulfils_complete_request config es s k c :
  run config init es = Some s ->
  closures s !! k = Some c ->
  Defer.isPending (deferred c) = true ->
  missing c = [] ->
  invokedAt c + minWait config <= now s ->
  exists s' c',
    step config s (MinTimeout k) = Some s' /\
    closures s' !! k = Some c' /\
    deferred c' = Fulfilled (result c) /\
    heap s' = heap s.
Proof.
  intros Hrun Hk Hp Hnil Hdue.
  pose proof (reachable_invariant _ _ _ Hrun) as Hinv.
  pose proof (shape_closures _ _ (reachable_shape _ _ _ Hrun) _ _ Hk)
    as [A M C E F G].
  destruct (inv_closures _ _ Hinv _ _ Hk) as [[A1 D1] H2 H3 H4 H5 H6].
  assert (fired (minTimer c) = false) as Hnf.
  { rewrite G. destruct (minTimeoutReached c); [|done].
    specialize (F eq_refl Hnil). congruence. }
  exists (with_closure k (minTimeoutCallback c) s), (minTimeoutCallback c).
  split; [|split; [|split; [|done]]].
  - simpl. rewrite Hk. simpl. rewrite Hnf. simpl.
    assert (Nat.leb (runsFrom (minTimer c)) (now s) = true) as ->; [|done].
    apply Nat.leb_le. unfold runsFrom. rewrite A1, D1.
    pose proof (timeoutDelay_le (minWait config)). lia.
  - simpl. apply list_lookup_insert_eq. by eapply lookup_lt_Some.
  - simpl. rewrite Hnil, Hp. simpl. by destruct (deferred c).
Qed.

Lemma minWait_fulfils_complete_request_witness :
  exists s' c',
    step config (stateAfter completeAtMinWait) (MinTimeout 0) = Some s' /\
    closures s' !! 0 = Some c' /\
    deferred c' = Fulfilled (result (closureAfter completeAtMinWait 0)) /\
    heap s' = heap (stateAfter completeAtMinWait).
Proof.
  apply (minWait_fulfils_complete_request config completeAtMinWait
           (stateAfter completeAtMinWait) 0 (closureAfter completeAtMinWait 0)).
  - vm_compute. reflexivity.
  - vm_compute. reflexivity.
  - vm_compute. reflexivity.
  - vm_compute. reflexivity.
  - vm_compute. lia.
Defined.

(** X6.  The published events and the accepted calls correspond one to
    one, in order: the event of call [k] goes to [topicArn] and carries the
    attributes of the call, which are direction [request], the function name
    of the aggregator, the reply topic and the request id. *)
Theorem one_request_event_per_call config es s :
  run config init es = Some s ->
  length (published s) = length (closures s) /\
  forall k c, closures s !! k = Some c ->
    exists data,
      published s !! k
        = Some (EventRecord.createPublishEvent (topicArn config) data
                  (requestAttributes config (ScatherRequestId (attrs c)))).
Proof.
  intros Hrun. destruct (reachable_shape _ _ _ Hrun) as [S1 S2 S3].
  split; [done|]. intros k c Hk. destruct (S3 k c Hk) as [data Hd].
  exists data. by rewrite <- (shape_attrs _ _ _ _ (S1 k c Hk)).
Qed.

Lemma one_request_event_per_call_witness :
  let s := stateAfter (unsubscribeWhileOutstanding ++ drained ++ afterTeardown) in
  length (published s) = length (closures s) /\
  forall k c, closures s !! k = Some c ->
    exists data,
      published s !! k
        = Some (EventRecord.createPublishEvent (topicArn config) data
                  (requestAttributes config (ScatherRequestId (attrs c)))).
Proof.
  apply (one_request_event_per_call config
           (unsubscribeWhileOutstanding ++ drained ++ afterTeardown)
           (stateAfter (unsubscribeWhileOutstanding ++ drained ++ afterTeardown))).
  vm_compute. reflexivity.
Defined.

(** X7.  Calls that share the reply topic do not disturb each other: what
    a delivery to [runGatherers] does to the variables and the object of
    call [k] is what [gatherer] of call [k] alone does to them. *)
Theorem gatherers_do_not_interfere config es s k event :
  run config init es = Some s ->
  closures (runGatherers event s) !! k = closures (gatherer k event s) !! k /\
  heap (runGatherers event s) !! k = heap (gatherer k event s) !! k.
Proof.
  intros Hrun. apply runGatherers_focus.
  apply (inv_wf config), (reachable_invariant _ _ _ Hrun).
Qed.

Lemma gatherers_do_not_interfere_witness :
  let s := stateAfter twoRequests in
  closures (runGatherers repeatedReplies s) !! 0
    = closures (gatherer 0 repeatedReplies s) !! 0 /\
  heap (runGatherers repeatedReplies s) !! 0
    = heap (gatherer 0 repeatedReplies s) !! 0.
Proof.
  apply (gatherers_do_not_interfere config twoRequests (stateAfter twoRequests)).
  vm_compute. reflexivity.
Defined.

(** X8.  A delivery none of whose records is a response carrying the
    request id of a call leaves the variables and the object of that call as
    they are; this covers replies to other requests and requests that arrive
    on the reply topic. *)
Theorem irrelevant_delivery_changes_nothing config es s k c event s' :
  run config init es = Some s ->
  closures s !! k = Some c ->
  (forall r, r ∈ event -> isResponseTo (ScatherRequestId (attrs c)) r = false) ->
  step config s (Deliver event) = Some s' ->
  closures s' !! k = Some c /\
  readObject s' (result c) = readObject s (result c).
Proof.
  intros Hrun Hk Hnone Hstep.
  pose proof (reachable_invariant _ _ _ Hrun) as Hinv.
  pose proof (inv_wf _ _ Hinv) as Hwf.
  rewrite (wf_result _ Hwf _ _ Hk).
  destruct (listening s) eqn:Hl;
    [|simpl in Hstep; rewrite Hl in Hstep; by injection Hstep as <-].
  destruct (Defer.isPending (deferred c)) eqn:Hp.
  - destruct (deliver_pending _ _ _ _ _ _ _ Hrun Hk Hp Hl Hstep)
      as (c' & Hk' & _ & Hobj & _).
    unfold relevant, EventRecord.extractScatherRecords in Hobj.
    rewrite (filter_none _ _ Hnone) in Hobj. simpl in Hobj. split; [|done].
    simpl in Hstep. rewrite Hl in Hstep. injection Hstep as <-.
    destruct (runGatherers_focus s k event Hwf) as [Hc _].
    rewrite Hc. unfold gatherer. rewrite Hk, Hp. simpl.
    unfold EventRecord.extractScatherRecords. rewrite (filter_none _ _ Hnone).
    simpl. rewrite list_lookup_insert_eq by (by eapply lookup_lt_Some).
    pose proof (shape_closures _ _ (reachable_shape _ _ _ Hrun) _ _ Hk)
      as [A M C E F G].
    assert (Nat.eqb (length (missing c)) 0 && minTimeoutReached c = false) as ->.
    { destruct (missing c) as [|x m] eqn:Hm; [|done]. simpl.
      destruct (minTimeoutReached c); [|done]. specialize (F eq_refl eq_refl).
      congruence. }
    by destruct c.
  - simpl in Hstep. rewrite Hl in Hstep. injection Hstep as <-.
    destruct (runGatherers_focus s k event Hwf) as [Hc Hh].
    unfold readObject. rewrite Hc, Hh.
    by rewrite (gatherer_settled _ _ _ _ Hk Hp).
Qed.

Lemma irrelevant_delivery_changes_nothing_witness :
  let s := stateAfter oneRequest in
  let c := closureAfter oneRequest 0 in
  closures (stateAfter (oneRequest ++ [Deliver strayEvent])) !! 0 = Some c /\
  readObject (stateAfter (oneRequest ++ [Deliver strayEvent])) (result c)
    = readObject s (result c).
Proof.
  apply (irrelevant_delivery_changes_nothing config oneRequest
           (stateAfter oneRequest) 0 (closureAfter oneRequest 0) strayEvent
           (stateAfter (oneRequest ++ [Deliver strayEvent]))).
  - vm_compute. reflexivity.
  - vm_compute. reflexivity.
  - intros r Hr. repeat (apply elem_of_cons in Hr as [-> | Hr]; [reflexivity|]).
    by apply elem_of_nil in Hr.
  - vm_compute. reflexivity.
Defined.

(** X9.  A delivery to a pending call stores, for every sender other
    than [__proto__] with a record answering the call, the message of the
    last such record of the event; the entries of all other keys stay as
    they are.  The object never has a key [__proto__]: the assignment of
    line 109 for a sender of that name stores nothing. *)
Theorem last_reply_wins config es s k c event s' key :
  run config init es = Some s ->
  closures s !! k = Some c ->
  Defer.isPending (deferred c) = true ->
  listening s = true ->
  step config s (Deliver event) = Some s' ->
  key <> "__proto__" ->
  readObject s' (result c) !! key =
    match lastMessage key (relevant c event) with
    | Some v => Some v
    | None => readObject s (result c) !! key
    end /\
  readObject s' (result c) !! "__proto__" = None.
Proof.
  intros Hrun Hk Hp Hl Hstep Hkey.
  pose proof (inv_wf _ _ (reachable_invariant _ _ _ Hrun)) as Hwf.
  split.
  - rewrite (wf_result _ Hwf _ _ Hk).
    destruct (deliver_pending _ _ _ _ _ _ _ Hrun Hk Hp Hl Hstep)
      as (c' & _ & _ & -> & _).
    by apply (storeRecords_lookup key _ (missing c, readObject s k)).
  - apply not_elem_of_dom, plainKeys_read.
    eapply step_plain; [|done]. by eapply reachable_plain.
Qed.

Lemma last_reply_wins_witness :
  readObject (stateAfter (oneRequest ++ [Deliver repeatedReplies]))
    (result (closureAfter oneRequest 0)) !! "A" =
    match lastMessage "A" (relevant (closureAfter oneRequest 0) repeatedReplies) with
    | Some v => Some v
    | None =>
        readObject (stateAfter oneRequest) (result (closureAfter oneRequest 0)) !! "A"
    end /\
  readObject (stateAfter (oneRequest ++ [Deliver repeatedReplies]))
    (result (closureAfter oneRequest 0)) !! "__proto__" = None.
Proof.
  apply (last_reply_wins config oneRequest (stateAfter oneRequest) 0
           (closureAfter oneRequest 0) repeatedReplies
           (stateAfter (oneRequest ++ [Deliver repeatedReplies])) "A").
  - vm_compute. reflexivity.
  - vm_compute. reflexivity.
  - vm_compute. reflexivity.
  - vm_compute. reflexivity.
  - vm_compute. reflexivity.
  - discriminate.
Defined.

(** X10.  When [expects] names no responder twice, a delivery to a pending
    call leaves in [missing] exactly the responders that were missing and
    have no record answering the call in the event. *)
Theorem reply_removes_sender config es s k c event s' x :
  NoDup (expects config) ->
  run config init es = Some s ->
  closures s !! k = Some c ->
  Defer.isPending (deferred c) = true ->
  listening s = true ->
  step config s (Deliver event) = Some s' ->
  exists c',
    closures s' !! k = Some c' /\
    (x ∈ missing c' <->
     x ∈ missing c /\ forall r, r ∈ relevant c event -> sender r <> x).
Proof.
  intros Hnd Hrun Hk Hp Hl Hstep.
  destruct (deliver_pending _ _ _ _ _ _ _ Hrun Hk Hp Hl Hstep)
    as (c' & Hk' & Hm & _).
  exists c'. split; [done|]. rewrite Hm. apply storeRecords_NoDup.
  eapply sublist_NoDup; [done|].
  apply (shape_missing _ _ _ _
           (shape_closures _ _ (reachable_shape _ _ _ Hrun) _ _ Hk)).
Qed.

Lemma reply_removes_sender_witness :
  exists c',
    closures (stateAfter (oneRequest ++ [Deliver repeatedReplies])) !! 0 = Some c' /\
    ("B" ∈ missing c' <->
     "B" ∈ missing (closureAfter oneRequest 0) /\
     forall r, r ∈ relevant (closureAfter oneRequest 0) repeatedReplies ->
               sender r <> "B").
Proof.
  apply (reply_removes_sender config oneRequest (stateAfter oneRequest) 0
           (closureAfter oneRequest 0) repeatedReplies
           (stateAfter (oneRequest ++ [Deliver repeatedReplies])) "B").
  - apply NoDup_cons. split; [|apply NoDup_singleton].
    apply not_elem_of_cons. split; [done | apply not_elem_of_nil].
  - vm_compute. reflexivity.
  - vm_compute. reflexivity.
  - vm_compute. reflexivity.
  - vm_compute. reflexivity.
  - vm_compute. reflexivity.
Defined.

(** X11.  Once [subscribed] is false nothing is gathered or published any
    more: over every continuation of the run [subscribed] stays false and
    the result objects, the [missing] arrays and the list of published
    events stay as they are.  A request that is pending then can only be
    fulfilled by its timers, with what it holds. *)
Theorem nothing_gathered_after_teardown config es s es' s' :
  run config init es = Some s ->
  subscribed s = false ->
  run config s es' = Some s' ->
  subscribed s' = false /\ heap s' = heap s /\
  missing <$> closures s' = missing <$> closures s /\
  published s' = published s.
Proof.
  intros Hrun Hsub Hrun'.
  pose proof (reachable_invariant _ _ _ Hrun) as Hinv. clear Hrun.
  revert s s' Hinv Hsub Hrun'.
  induction es' as [|e es' IH]; intros s s' Hinv Hsub Hrun'; simpl in Hrun'.
  - by injection Hrun' as <-.
  - destruct (step config s e) as [s1|] eqn:Hstep; simpl in Hrun'; [|done].
    destruct (step_sound _ _ _ _ Hinv Hstep) as (Hinv1 & _ & _).
    destruct (step_after_teardown _ _ _ _ Hinv Hsub Hstep) as (S1 & H1 & M1 & P1).
    destruct (IH _ _ Hinv1 S1 Hrun') as (S' & H' & M' & P').
    split; [done|]. split; [congruence|]. split; congruence.
Qed.

Lemma nothing_gathered_after_teardown_witness :
  let s := stateAfter (unsubscribeLate ++ drained) in
  let s' := stateAfter (unsubscribeLate ++ drained ++ afterTeardown) in
  subscribed s' = false /\ heap s' = heap s /\
  missing <$> closures s' = missing <$> closures s /\
  published s' = published s.
Proof.
  apply (nothing_gathered_after_teardown config (unsubscribeLate ++ drained)
           (stateAfter (unsubscribeLate ++ drained)) afterTeardown
           (stateAfter (unsubscribeLate ++ drained ++ afterTeardown))).
  - vm_compute. reflexivity.
  - vm_compute. reflexivity.
  - vm_compute. reflexivity.
Defined.

(** A request accepted after [unsubscribe] was called is pending when the
    listener goes; its reply is dropped and it is fulfilled at the maximum
    wait with an empty object. *)
Example request_stranded_by_unsubscribe :
  let s := stateAfter (unsubscribeLate ++ drained) in
  deferred (closureAfter (unsubscribeLate ++ drained) 1) = Pending /\
  listening s = false /\
  exists s',
    run config s [Deliver [reply "A" "id-2" "a"; reply "B" "id-2" "b"];
                  Elapse 400; MinTimeout 1; MaxTimeout 1] = Some s' /\
    promiseState s' 1 = Fulfilled 1 /\
    readObject s' 1 = ∅.
Proof.
  split; [vm_compute; reflexivity|]. split; [vm_compute; reflexivity|].
  eexists. split; [vm_compute; reflexivity|].
  split; vm_compute; reflexivity.
Qed.

End AggregatorExtras.

(** * Further properties of the responder *)

Module ResponderMore.
Import Responder ResponderSpec ResponderRuns ResponderFacts ResponderShape.

Lemma promise_all_first_rejected {V} (ps : list (promise V)) : forall i e,
  ps !! i = Some (Rejected e) ->
  (forall j e', j < i -> ps !! j <> Some (Rejected e')) ->
  promise_all ps = Rejected e.
Proof.
  induction ps as [|p ps IH]; intros i e Hi Hfirst; [done|].
  destruct i as [|i].
  - simpl in Hi. by injection Hi as ->.
  - assert (promise_all ps = Rejected e) as Hps.
    { apply (IH i); [done|]. intros j e' Hj. apply (Hfirst (S j)). lia. }
    simpl. rewrite Hps. destruct p as [|v|e0]; try done.
    by destruct (Hfirst 0 e0 ltac:(lia)).
Qed.


Lemma runHandler_rejected handler takes name r e :
  runHandler handler takes name r = Rejected e -> fails handler takes name r e.
Proof.
  unfold fails, runHandler, innerContextOf. destruct takes.
  - destruct (call3 handler _ _) as [calls completion].
    destruct calls as [|[[e'|] d] calls].
    + destruct completion; simpl; [done|]. by intros [= ->].
    + simpl.
      assert (innerCallback Defer.defer (Some e', d) = Rejected e') as -> by reflexivity.
      rewrite innerCallbacks_settled by done. destruct completion; by intros [= ->].
    + simpl.
      assert (innerCallback Defer.defer (None, d) = Fulfilled d) as -> by reflexivity.
      rewrite innerCallbacks_settled by done. by destruct completion.
  - destruct (call2 handler _ _); [done|]. by intros [= ->].
Qed.

Lemma lateCallback_all_stable takes callback i call s s' :
  lateCallback takes callback i call s = Some s' ->
  Defer.isPending (all s) = false -> all s' = all s.
Proof.
  unfold lateCallback. destruct takes; [simpl|done].
  destruct (promises s !! i) as [p|]; [simpl|done].
  destruct (records s !! i) as [r|]; [simpl|done].
  intros [= <-] Hp. simpl. unfold allOnSettle. rewrite Hp. by destruct (_ && _).
Qed.

Lemma run_all_stable takes callback calls : forall s s',
  run takes callback s calls = Some s' ->
  Defer.isPending (all s) = false -> all s' = all s.
Proof.
  induction calls as [|[i call] calls IH]; intros s s' Hrun Hp; simpl in Hrun.
  - by injection Hrun as <-.
  - destruct (lateCallback takes callback i call s) as [s1|] eqn:Hlate;
      simpl in Hrun; [|done].
    pose proof (lateCallback_all_stable _ _ _ _ _ _ Hlate Hp) as H1.
    rewrite <- H1. apply IH; [done|]. by rewrite H1.
Qed.



End ResponderMore.

(** * Further theorems about the responder *)

Module ResponderExtras.
Import Responder ResponderSpec ResponderRuns ResponderFacts ResponderShape.
Import ResponderMore Transport.

(** X12.  An event without a request record, for instance one made of
    replies, starts no handler: nothing is published, then or later, and
    [Promise.all] is fulfilled with the empty list. *)
Theorem nothing_but_requests_is_handled
    handler takes event context callback ret s0 calls s :
  (forall r, r ∈ event -> isRequest r = false) ->
  entry handler takes event context callback = Completed ret s0 ->
  run takes callback s0 calls = Some s ->
  promises s = [] /\ published s = [] /\ all s = Fulfilled [].
Proof.
  intros Hnone Hentry Hrun.
  assert (promises s0 = [] /\ published s0 = [] /\ all s0 = Fulfilled []) as H0.
  { unfold entry in Hentry. destruct context as [ctx|]; [|done].
    destruct (ctxFunctionName ctx) as [name|]; [|done].
    destruct (String.eqb name ""); [done|].
    injection Hentry as _ <-. simpl.
    unfold EventRecord.extractScatherRecords.
    by rewrite (AggregatorMore.filter_none _ _ Hnone). }
  destruct calls as [|[i call] calls]; simpl in Hrun.
  - by injection Hrun as <-.
  - destruct H0 as (Hp & _ & _). unfold lateCallback in Hrun.
    destruct takes; [|done]. simpl in Hrun. by rewrite Hp in Hrun.
Qed.

Lemma nothing_but_requests_is_handled_witness :
  let replyRecord := asRecord (publishReaction "responder" (request "id-1" "x") "y") in
  let s := stateOf (entry echo true [replyRecord] context true) in
  promises s = [] /\ published s = [] /\ all s = Fulfilled [].
Proof.
  apply (nothing_but_requests_is_handled echo true
           [asRecord (publishReaction "responder" (request "id-1" "x") "y")]
           context true Undefined
           (stateOf (entry echo true
              [asRecord (publishReaction "responder" (request "id-1" "x") "y")]
              context true)) []).
  - intros r Hr. apply elem_of_cons in Hr as [-> | Hr]; [reflexivity|].
    by apply elem_of_nil in Hr.
  - vm_compute. reflexivity.
  - vm_compute. reflexivity.
Defined.



(** X14.  When the continuation of a record is called after the promise of
    the record has settled, nothing changes: no promise, no second reply, no
    call of the outer continuation. *)
Theorem repeated_continuation_call_is_ignored takes callback i call s s' p :
  lateCallback takes callback i call s = Some s' ->
  promises s !! i = Some p ->
  Defer.isPending p = false ->
  s' = s.
Proof.
  unfold lateCallback. destruct takes; [simpl|done]. intros Hlate Hp Hsettled.
  rewrite Hp in Hlate. simpl in Hlate.
  destruct (records s !! i) as [r|]; [simpl in Hlate|done].
  rewrite innerCallback_settled, Hsettled in Hlate by done. simpl in Hlate.
  rewrite list_insert_id, !app_nil_r in Hlate by done.
  assert ((if callback && Defer.isPending (all s) then outerReaction (all s) else [])
          = []) as Hnone.
  { destruct callback; [|done]. simpl. by destruct (all s). }
  rewrite Hnone, app_nil_r in Hlate. injection Hlate as <-. by destruct s.
Qed.

Lemma repeated_continuation_call_is_ignored_witness :
  exists s,
    run true true (stateOf (entry echo true [request "id-1" "Hello"] context true))
      [(0, (Some "again", "x"))] = Some s /\
    s = stateOf (entry echo true [request "id-1" "Hello"] context true).
Proof.
  exists (stateOf (entry echo true [request "id-1" "Hello"] context true)).
  split; [vm_compute; reflexivity|].
  apply (repeated_continuation_call_is_ignored true true 0 (Some "again", "x")
           (stateOf (entry echo true [request "id-1" "Hello"] context true))
           _ (Fulfilled "Hello")).
  - vm_compute. reflexivity.
  - vm_compute. reflexivity.
  - reflexivity.
Defined.

(** X15.  The first record, in the order of the batch, whose handling has
    failed when the entry point returns decides the batch: [Promise.all] is
    rejected with its error and stays so, and a continuation passed to a
    handler-with-continuation entry point is called once, with that error
    and [null]. *)
Theorem first_failure_decides_the_batch
    handler takes event context callback ret s0 calls s i r e :
  entry handler takes event context callback = Completed ret s0 ->
  run takes callback s0 calls = Some s ->
  EventRecord.extractScatherRecords event isRequest !! i = Some r ->
  fails handler takes (functionName s0) r e ->
  (forall j r' e', j < i ->
     EventRecord.extractScatherRecords event isRequest !! j = Some r' ->
     ~ fails handler takes (functionName s0) r' e') ->
  all s = Rejected e /\
  callbackCalls s = if takes && callback then [(Some e, None)] else [].
Proof.
  intros Hentry Hrun Hr Hfails Hfirst.
  destruct (entry_sound _ _ _ _ _ _ _ Hentry) as (Hinv0 & Hcalls0 & _ & R0 & P0).
  destruct (responder_run_sound _ _ _ _ _ Hrun Hinv0 Hcalls0)
    as (_ & Hcalls & _).
  assert (all s0 = Rejected e) as Hall0.
  { unfold entry in Hentry. destruct context as [ctx|]; [|done].
    destruct (ctxFunctionName ctx) as [name|]; [|done].
    destruct (String.eqb name ""); [done|].
    injection Hentry as _ <-. simpl in *.
    apply (promise_all_first_rejected _ i).
    - rewrite lookup_map, Hr. simpl. f_equal. by apply runHandler_fails.
    - intros j e' Hj. rewrite lookup_map.
      destruct (EventRecord.extractScatherRecords event isRequest !! j)
        as [r'|] eqn:Hr'; [|done].
      simpl. intros [= Hrej]. apply runHandler_rejected in Hrej.
      by apply (Hfirst j r' e'). }
  assert (all s = Rejected e) as Hall.
  { rewrite <- Hall0. eapply run_all_stable; [done|]. by rewrite Hall0. }
  split; [done|]. unfold callsOk in Hcalls. by rewrite Hcalls, Hall.
Qed.

Lemma first_failure_decides_the_batch_witness :
  let s := stateOf (entry failOrAnswerLater true batch context true) in
  all s = Rejected "boom" /\
  callbackCalls s = if true && true then [(Some "boom", None)] else [].
Proof.
  apply (first_failure_decides_the_batch failOrAnswerLater true batch context
           true Undefined
           (stateOf (entry failOrAnswerLater true batch context true)) []
           (stateOf (entry failOrAnswerLater true batch context true)) 1
           (request "id-2" "bad") "boom").
  - vm_compute. reflexivity.
  - vm_compute. reflexivity.
  - vm_compute. reflexivity.
  - vm_compute. reflexivity.
  - intros j r' e' Hj Hr'. destruct j as [|j]; [|lia].
    injection Hr' as <-. vm_compute. tauto.
Defined.



End ResponderExtras.

(** * Further properties of [callbackArguments] *)

Module CallbackArgumentsMore.
Import CallbackArguments CallbackArgumentsFacts CallbackArgumentsShape.

Lemma append_nil_r (a : string) : a ++ "" = a.
Proof. induction a as [|c a IH]; [done|]. by rewrite append_cons, IH. Qed.

Lemma length_append (a b : string) :
  String.length (a ++ b) = String.length a + String.length b.
Proof. induction a as [|c a IH]; [done|]. rewrite append_cons. simpl. by rewrite IH. Qed.

Lemma substring_prefix (a b : string) :
  String.substring 0 (String.length a) (a ++ b) = a.
Proof.
  induction a as [|c a IH].
  - simpl. by destruct b.
  - rewrite append_cons. simpl. by rewrite IH.
Qed.

Lemma lastIs_snoc c (a : string) : lastIs c (a ++ String c "") = true.
Proof.
  induction a as [|d a IH].
  - simpl. apply Ascii.eqb_refl.
  - rewrite append_cons.
    change (lastIs c (String d (a ++ String c "")))
      with (match a ++ String c "" with
            | EmptyString => Ascii.eqb c d
            | String _ _ => lastIs c (a ++ String c "")
            end).
    rewrite IH. destruct (a ++ String c "") eqn:E; [|done].
    by destruct a.
Qed.

Lemma stripPrefix_hasBrace p : forall s r,
  stripPrefix p s = Some r -> hasBrace s = false -> hasBrace r = false.
Proof.
  induction p as [|a p IH]; intros s r Hs Hb; simpl in Hs.
  - by injection Hs as <-.
  - destruct s as [|b s]; [done|]. destruct (Ascii.eqb a b); [|done].
    simpl in Hb. apply orb_false_iff in Hb as [_ Hb]. by apply (IH s).
Qed.

Lemma optWhite_hasBrace s r :
  r ∈ optWhite s -> hasBrace s = false -> hasBrace r = false.
Proof.
  intros Hr Hb. destruct s as [|c s]; simpl in Hr.
  - by apply list_elem_of_singleton in Hr as ->.
  - simpl in Hb. apply orb_false_iff in Hb as [Hc Hs].
    destruct (isWhite c).
    + apply elem_of_cons in Hr as [-> | Hr]; [done|].
      apply list_elem_of_singleton in Hr as ->. simpl. by rewrite Hc, Hs.
    + apply list_elem_of_singleton in Hr as ->. simpl. by rewrite Hc, Hs.
Qed.

Lemma optWord_hasBrace p s r :
  r ∈ optWord p s -> hasBrace s = false -> hasBrace r = false.
Proof.
  unfold optWord. intros Hr Hb.
  destruct (stripPrefix p s) as [t|] eqn:Ht.
  - apply elem_of_app in Hr as [Hr | Hr].
    + eapply optWhite_hasBrace; [done|]. by eapply stripPrefix_hasBrace.
    + by apply list_elem_of_singleton in Hr as ->.
  - by apply list_elem_of_singleton in Hr as ->.
Qed.

Lemma existsb_none {A} (f : A -> bool) (l : list A) :
  (forall x, x ∈ l -> f x = false) -> existsb f l = false.
Proof.
  induction l as [|a l IH]; intros H; simpl; [done|].
  rewrite (H a) by left. apply IH. intros x Hx. apply H. by right.
Qed.

Lemma startsWithBrace_hasBrace s : hasBrace s = false -> startsWithBrace s = false.
Proof. destruct s as [|c s]; simpl; [done|]. by intros [? _]%orb_false_iff. Qed.

Lemma beforeBrace_hasBrace s : hasBrace s = false -> beforeBrace s = false.
Proof.
  intros Hb. unfold beforeBrace. apply existsb_none. intros s1 Hs1.
  apply existsb_none. intros s2 Hs2. apply startsWithBrace_hasBrace.
  eapply optWord_hasBrace; [done|]. by eapply optWhite_hasBrace.
Qed.

Lemma lazyGroup_hasBrace s : forall seen,
  hasBrace s = false -> lazyGroup seen s = None.
Proof.
  induction s as [|c s IH]; intros seen Hb; [done|].
  simpl in Hb. apply orb_false_iff in Hb as [_ Hb].
  rewrite lazyGroup_cons, beforeBrace_hasBrace by done. by apply IH.
Qed.

Lemma firstMatch_hasBrace alts :
  (forall s, s ∈ alts -> hasBrace s = false) -> firstMatch alts = None.
Proof.
  induction alts as [|s alts IH]; intros H; simpl; [done|].
  rewrite lazyGroup_hasBrace by (apply H; left).
  apply IH. intros t Ht. apply H. by right.
Qed.

Lemma split_no_commas s : forall cur, commas s = 0 -> split cur s = [cur ++ s].
Proof.
  induction s as [|c s IH]; intros cur Hc.
  - by rewrite append_nil_r.
  - rewrite split_cons. rewrite commas_cons in Hc.
    destruct (Ascii.eqb c ","); [simpl in Hc; lia|].
    rewrite IH by (simpl in Hc; lia). by rewrite append_assoc.
Qed.

Lemma split_piece p rest : forall cur,
  commas p = 0 ->
  split cur (p ++ ", " ++ rest) = (cur ++ p) :: split "" rest.
Proof.
  induction p as [|c p IH]; intros cur Hc.
  - by rewrite append_nil_r.
  - rewrite append_cons, split_cons. rewrite commas_cons in Hc.
    destruct (Ascii.eqb c ","); [simpl in Hc; lia|].
    rewrite IH by (simpl in Hc; lia). by rewrite append_assoc.
Qed.

Lemma split_concat ps : forall p,
  Forall plain (p :: ps) -> split "" (String.concat ", " (p :: ps)) = p :: ps.
Proof.
  induction ps as [|q ps IH]; intros p Hp.
  - apply Forall_cons in Hp as [[_ Hp] _]. simpl. by rewrite split_no_commas.
  - apply Forall_cons in Hp as [[_ Hp] Hps].
    rewrite concat_cons2, split_piece by done. by rewrite IH.
Qed.

(** What the first regular expression captures from the text of a plain
    declaration. *)
Lemma rxExec_plain f :
  plainDecl f ->
  rxExec (toString f)
    = Some (fn_name f ++ "(" ++ String.concat ", " (fn_params f) ++ ")").
Proof.
  intros [[Hqn Hcn] Hps].
  set (pre := fn_name f ++ "(" ++ String.concat ", " (fn_params f) ++ ")").
  rewrite toString_split. fold pre. unfold rxExec.
  change (optWord "function" ("function " ++ pre ++ " {" ++ fn_body f ++ "}"))
    with ([pre ++ " {" ++ fn_body f ++ "}";
           " " ++ pre ++ " {" ++ fn_body f ++ "}";
           "function " ++ pre ++ " {" ++ fn_body f ++ "}"]).
  unfold firstMatch. rewrite lazyGroup_quiet; [done | |].
  - unfold pre. by destruct (fn_name f).
  - unfold pre. rewrite !quiet_app, Hqn, quiet_concat by done. done.
Qed.

Lemma callbackArguments_named f :
  plainDecl f -> named f ->
  exists args,
    callbackArguments (toString f) = Some args /\
    length args = Nat.max 1 (length (fn_params f)).
Proof.
  intros Hplain Hnamed. pose proof (rxExec_plain f Hplain) as Hrx.
  destruct Hplain as [[Hqn Hcn] Hps].
  set (pre := fn_name f ++ "(" ++ String.concat ", " (fn_params f) ++ ")") in *.
  assert (commas pre = pred (length (fn_params f))) as Hcommas.
  { unfold pre. rewrite !commas_app, Hcn, commas_concat by done. simpl. lia. }
  assert (exists c rest, pre = String c rest /\ c <> "("%char) as (c & rest & Hpre & Hc).
  { unfold pre, named in *. destruct (fn_name f) as [|c n]; [done|].
    by exists c, (n ++ "(" ++ String.concat ", " (fn_params f) ++ ")"). }
  assert (parenthesised pre = false) as Hpar.
  { rewrite Hpre. simpl. apply Ascii.eqb_neq in Hc. by rewrite Hc. }
  unfold callbackArguments. rewrite Hrx, Hpar.
  eexists. split; [reflexivity|].
  pose proof (length_split pre "") as Hlen. rewrite Hcommas in Hlen.
  destruct (fn_params f) as [|p [|q ps]] eqn:Hparams; simpl in *.
  - rewrite split_no_commas by lia. by rewrite Hpre.
  - rewrite split_no_commas by lia. by rewrite Hpre.
  - destruct (split "" pre) as [|a [|b l]]; simpl in *; lia.
Qed.

End CallbackArgumentsMore.

(** * Further theorems about [callbackArguments] *)

Module CallbackArgumentsExtras.
Import CallbackArguments CallbackArgumentsFacts CallbackArgumentsShape.
Import CallbackArgumentsMore.

(** X17.  A function whose source text holds no opening brace, such as an
    arrow function with an expression for a body, cannot be wrapped: the
    first regular expression of [callbackArguments] does not match,
    [match[1]] raises, and [response] raises with it. *)
Theorem text_without_brace_cannot_be_wrapped handler :
  hasBrace (Responder.source handler) = false ->
  callbackArguments (Responder.source handler) = None /\
  Responder.response (Some handler) = Responder.WrapThrew "TypeError".
Proof.
  intros Hb.
  assert (callbackArguments (Responder.source handler) = None) as Hnone.
  { unfold callbackArguments, rxExec. rewrite firstMatch_hasBrace; [done|].
    intros s Hs. by eapply optWord_hasBrace. }
  split; [done|]. unfold Responder.response. by rewrite Hnone.
Qed.

Lemma text_without_brace_cannot_be_wrapped_witness :
  callbackArguments (Responder.source sum) = None /\
  Responder.response (Some sum) = Responder.WrapThrew "TypeError".
Proof.
  apply (text_without_brace_cannot_be_wrapped sum). reflexivity.
Defined.

(** X18.  A handler declared as a named function with plain parameters is
    wrapped as a handler with continuation exactly when it declares three
    parameters or more. *)
Theorem named_handler_paradigm_by_arity handler f :
  Responder.source handler = toString f ->
  plainDecl f -> named f ->
  Responder.response (Some handler)
    = Responder.EntryPoint handler (Nat.leb 3 (length (fn_params f))).
Proof.
  intros Hsrc Hplain Hnamed.
  destruct (callbackArguments_named f Hplain Hnamed) as (args & Hargs & Hlen).
  unfold Responder.response. rewrite Hsrc, Hargs, Hlen. f_equal.
  destruct (fn_params f) as [|p [|q [|r ps]]]; reflexivity.
Qed.

Lemma named_handler_paradigm_by_arity_witness :
  Responder.response (Some ResponderRuns.echo)
    = Responder.EntryPoint ResponderRuns.echo
        (Nat.leb 3 (length (fn_params echoDecl))).
Proof.
  apply (named_handler_paradigm_by_arity ResponderRuns.echo echoDecl).
  - reflexivity.
  - split; [by split|]. repeat constructor.
  - simpl. discriminate.
Defined.

(** X19.  For an anonymous function declared with plain, non-empty
    parameters [callbackArguments] returns the declared parameters, in
    order. *)
Theorem anonymous_declaration_gives_parameters f :
  plainDecl f ->
  fn_name f = "" ->
  Forall (fun p => p <> "") (fn_params f) ->
  callbackArguments (toString f) = Some (fn_params f).
Proof.
  intros Hplain Hname Hne. pose proof (rxExec_plain f Hplain) as Hrx.
  destruct Hplain as [_ Hps]. rewrite Hname in Hrx.
  set (P := String.concat ", " (fn_params f)) in *.
  change ("" ++ "(" ++ P ++ ")") with (String "(" (P ++ ")")) in Hrx.
  unfold callbackArguments. rewrite Hrx.
  assert (parenthesised (String "(" (P ++ ")")) = true) as ->.
  { simpl. apply (lastIs_snoc ")"%char P). }
  assert (String.substring 1 (String.length (String "(" (P ++ ")")) - 2)
            (String "(" (P ++ ")")) = P) as ->.
  { simpl. rewrite length_append. simpl.
    replace (String.length P + 1 - 1) with (String.length P) by lia.
    apply substring_prefix. }
  f_equal. unfold P. destruct (fn_params f) as [|p ps] eqn:Hparams; [done|].
  rewrite split_concat by done.
  destruct ps as [|q ps]; [|done].
  apply Forall_cons in Hne as [Hp _].
  destruct (String.eqb p "") eqn:E; [|done]. by apply String.eqb_eq in E.
Qed.

Lemma anonymous_declaration_gives_parameters_witness :
  callbackArguments (toString anonymousDecl) = Some (fn_params anonymousDecl).
Proof.
  apply (anonymous_declaration_gives_parameters anonymousDecl).
  - split; [by split|]. repeat constructor.
  - reflexivity.
  - repeat constructor; discriminate.
Defined.

End CallbackArgumentsExtras.

(** * Properties of the module [log] *)

Module LogFacts.
Import Log CallbackArgumentsFacts CallbackArgumentsMore.

Lemma length_spaces n : String.length (spaces n) = n.
Proof.
  induction n as [|n IH]; [done|].
  change (spaces (S n)) with (String " " (spaces n)). simpl. by rewrite IH.
Qed.

Lemma length_substring_le s : forall m,
  String.length (String.substring 0 m s) <= m.
Proof.
  induction s as [|c s IH]; intros [|m]; simpl; try lia.
  specialize (IH m). lia.
Qed.

Lemma pad_spaces fuel : forall str (length : Z),
  (0 <= length)%Z ->
  String.length str <= Z.to_nat length ->
  Z.to_nat length - String.length str <= fuel ->
  pad fuel str length = str ++ spaces (Z.to_nat length - String.length str).
Proof.
  induction fuel as [|fuel IH]; intros str n Hn Hle Hfuel.
  - simpl. replace (Z.to_nat n - String.length str) with 0 by lia.
    by rewrite append_nil_r.
  - simpl. destruct (Z.ltb_spec (Z.of_nat (String.length str)) n) as [Hlt | Hge].
    + rewrite IH; rewrite ?length_append; simpl; try lia.
      replace (Z.to_nat n - String.length str)
        with (S (Z.to_nat n - (String.length str + 1))) by lia.
      by rewrite append_assoc.
    + replace (Z.to_nat n - String.length str) with 0 by lia.
      by rewrite append_nil_r.
Qed.

End LogFacts.

Module LogExtras.
Import Log LogFacts CallbackArgumentsMore.

(** X20.  [fixedLength (str, length)] is [str] cut to its first [length]
    characters and filled up with spaces on the right, so that it has
    exactly [length] characters (none when [length] is negative). *)
Theorem fixedLength_cuts_and_pads str (length : Z) :
  let cut := String.substring 0 (Z.to_nat length) str in
  fixedLength str length
    = cut ++ spaces (Z.to_nat length - String.length cut) /\
  String.length (fixedLength str length) = Z.to_nat length.
Proof.
  intros cut.
  pose proof (length_substring_le str (Z.to_nat length)) as Hcut. fold cut in Hcut.
  assert (fixedLength str length
          = cut ++ spaces (Z.to_nat length - String.length cut)) as Heq.
  { unfold fixedLength. fold cut.
    destruct (Z.le_gt_cases 0 length) as [Hn | Hn].
    - apply pad_spaces; [done | done | lia].
    - replace (Z.to_nat length) with 0 in * by lia. simpl.
      by rewrite append_nil_r. }
  split; [done|]. rewrite Heq, length_append, length_spaces. lia.
Qed.

End LogExtras.

(** * A request and its reply *)

Module RoundTrip.
Import Aggregator AggregatorSpec AggregatorShape AggregatorFacts AggregatorMore.
Import AggregatorRuns Transport.



End RoundTrip.
